(** * api-tester.js: the request-mutation test generator, its executor loop
      and its classifier, as a shallow embedding.

    Source: [src/apitester/node/api-tester.js], class [APITester], and the
    functions of the command line, [parseArguments], [main],
    [runInteractiveMode] and [getMultilineInput].

    Conventions of the embedding.
    - A JavaScript value is a [jsval].  A plain object is the list of its own
      enumerable properties in enumeration order ([Object.keys] order); the
      lists that stand for objects have pairwise distinct keys ([wf_json]).
      A new property goes to the end of the list, which is where the engine
      puts it unless the key is a canonical array index, which the engine
      lists first.  A property read sees own properties only: reading an
      absent property gives [undefined].  This is what the source does for
      every key but the names of the members of [Object.prototype]
      ([prototype_names]); a statement about keys that are not own keys of
      the object says of which keys it speaks.
    - A number is the exact decimal [mant * 10^exp10] of its literal.  The
      engine holds the nearest double: [rounds_to_zero] and
      [rounds_to_infinity] say when that double is 0 and when it is
      Infinity.  The code asks for the [typeof] of a number and for its
      truthiness, and it serialises it: the serialiser writes Infinity as
      [null], which [clone_inner] does not follow, so a statement that
      depends on the clone of a payload with numbers says that they are
      finite ([finite_json]).
    - Text is a sequence of bytes; the string methods and the regular
      expressions agree with the source on ASCII input.
    - Status codes are integers ([Z]).
    - Header objects are finite maps from names to values.
    - Objects are values: each generator writes to a fresh clone, so a
      written object is returned instead of being changed in place.
    - A call that may throw has a [Completion] for its result, and a [try]
      block is a [try_catch]; [Math.random] is a sequence of draws and the
      network an oracle, both given from outside.
    - [console.log] lines do not influence results and are dropped; the
      diagnostic of [setNestedValue] is kept as a log.  The unused parameter
      [schema] is dropped, and so is the field [baseRequest] of the tester,
      which is written by [parseCurl] and read nowhere. *)

From Stdlib Require Import ZArith QArith.QArith QArith.Qround Strings.String Strings.Ascii
  Numbers.DecimalString.
From stdpp Require Import base list strings gmap.

Local Open Scope string_scope.
Local Open Scope list_scope.
Local Open Scope Z_scope.

(** ** JavaScript values *)

Record jsnum := JsNum { mant : Z; exp10 : Z }.

Definition num_of_Z (z : Z) : jsnum := JsNum z 0.

(** The magnitude of a number, as a fraction. *)
Definition magnitude (n : jsnum) : Z * Z :=
  if 0 <=? exp10 n then (Z.abs (mant n) * 10 ^ exp10 n, 1)
  else (Z.abs (mant n), 10 ^ (- exp10 n)).

(** The double nearest to the number is 0: the magnitude is at most
    2^-1075, half of the least positive double (a tie goes to the even
    neighbour, which is 0). *)
Definition rounds_to_zero (n : jsnum) : bool :=
  let '(a, b) := magnitude n in a * 2 ^ 1075 <=? b.

(** The double nearest to the number is Infinity: the magnitude is at least
    2^1024 - 2^970, halfway between the greatest finite double and 2^1024
    (a tie goes to the even neighbour, which is 2^1024). *)
Definition rounds_to_infinity (n : jsnum) : bool :=
  let '(a, b) := magnitude n in (2 ^ 1024 - 2 ^ 970) * b <=? a.

Unset Elimination Schemes.
Inductive jsval :=
| JUndefined
| JNull
| JBool (b : bool)
| JNum (n : jsnum)
| JStr (s : string)
| JArr (items : list jsval)
| JObj (fields : list (string * jsval)).
Set Elimination Schemes.

Abbreviation jsobject := (list (string * jsval)).

Definition JInt (z : Z) : jsval := JNum (num_of_Z z).

(** [typeof v === 'object' && v !== null && !Array.isArray(v)] *)
Definition is_plain_object (v : jsval) : bool :=
  match v with JObj _ => true | _ => false end.

Definition typeof_string (v : jsval) : bool :=
  match v with JStr _ => true | _ => false end.

Definition typeof_number (v : jsval) : bool :=
  match v with JNum _ => true | _ => false end.

(** Truthiness ([ToBoolean]). *)
Definition truthy (v : jsval) : bool :=
  match v with
  | JUndefined | JNull => false
  | JBool b => b
  | JNum n => negb (rounds_to_zero n)
  | JStr s => negb (String.eqb s "")
  | JArr _ | JObj _ => true
  end.

(** *** Own properties of a plain object *)

(** [Object.keys(o)] *)
Definition keys (o : jsobject) : list string := map fst o.

(** [o[k]] for an own property; [None] when [k] is not an own property
    (the read then yields [undefined]). *)
Fixpoint obj_get (o : jsobject) (k : string) : option jsval :=
  match o with
  | [] => None
  | (k', v) :: rest => if String.eqb k' k then Some v else obj_get rest k
  end.

(** The value a property read produces. *)
Definition obj_read (o : jsobject) (k : string) : jsval :=
  match obj_get o k with Some v => v | None => JUndefined end.

(** [o[k] = v]: an existing property keeps its place, a new one is added
    last.  That is the place the engine gives to a new key that is not a
    canonical array index; and the assignment makes an own property for
    every key but [__proto__]. *)
Fixpoint obj_set (o : jsobject) (k : string) (v : jsval) : jsobject :=
  match o with
  | [] => [(k, v)]
  | (k', v') :: rest =>
      if String.eqb k' k then (k', v) :: rest else (k', v') :: obj_set rest k v
  end.

(** [delete o[k]] *)
Fixpoint obj_delete (o : jsobject) (k : string) : jsobject :=
  match o with
  | [] => []
  | (k', v') :: rest =>
      if String.eqb k' k then rest else (k', v') :: obj_delete rest k
  end.

(** *** Well-formed JSON data

    What [JSON.parse] can return: no [undefined] anywhere and, in every
    object, pairwise distinct keys. *)

Fixpoint nodupb (l : list string) : bool :=
  match l with
  | [] => true
  | x :: rest => negb (existsb (String.eqb x) rest) && nodupb rest
  end.

Fixpoint wf_json (v : jsval) : bool :=
  match v with
  | JUndefined => false
  | JNull | JBool _ | JNum _ | JStr _ => true
  | JArr items => forallb wf_json items
  | JObj fields =>
      nodupb (map fst fields) && forallb (fun kv => wf_json (snd kv)) fields
  end.

Definition wf_object (o : jsobject) : bool := wf_json (JObj o).

(** *** [JSON.parse(JSON.stringify(v))]

    Serialisation leaves out the properties whose value is [undefined] and
    writes [null] for an [undefined] array element.  The program clones
    requests and plain objects only, never [undefined] itself.  A finite
    number comes back as it was; Infinity, which the source gets from a
    literal that overflows, would come back as [null], and is kept here:
    the clone is that of the source on data with finite numbers. *)

Fixpoint clone_inner (v : jsval) : jsval :=
  match v with
  | JArr items =>
      JArr (map (fun x => match x with JUndefined => JNull | _ => clone_inner x end) items)
  | JObj fields =>
      JObj ((fix go (l : jsobject) : jsobject :=
               match l with
               | [] => []
               | (k, JUndefined) :: rest => go rest
               | (k, x) :: rest => (k, clone_inner x) :: go rest
               end) fields)
  | _ => v
  end.

(** The clone of a plain object is a plain object. *)
Definition clone_object (o : jsobject) : jsobject :=
  match clone_inner (JObj o) with JObj o' => o' | _ => [] end.

(** ** Strings *)

(** [s.includes(sub)] *)
Fixpoint includes (s sub : string) : bool :=
  if String.prefix sub s then true
  else match s with
       | EmptyString => false
       | String _ rest => includes rest sub
       end.

(** [path.join('.')] *)
Fixpoint join (sep : string) (l : list string) : string :=
  match l with
  | [] => ""
  | [x] => x
  | x :: rest => x +:+ sep +:+ join sep rest
  end.

(** Decimal rendering of an integer in a template literal. *)
Definition Z_to_string (z : Z) : string := NilZero.string_of_int (Z.to_int z).

(** ['a'.repeat(n)] *)
Fixpoint repeat_string (s : string) (n : nat) : string :=
  match n with
  | O => ""
  | S m => s +:+ repeat_string s m
  end.

(** The double quote character, as a one-character string. *)
Definition dq : string := String "034"%char EmptyString.

(** ** Requests and test cases *)

(** The object built by [parseCurl] (lines 36-42). *)
Record Request := mkRequest {
  method : string;
  url : string;
  headers : gmap string string;
  data : jsval;
  params : jsobject
}.

(** [{ ...baseRequest, data: modifiedData }] *)
Definition with_data (r : Request) (d : jsval) : Request :=
  mkRequest (method r) (url r) (headers r) d (params r).

Definition with_headers (r : Request) (h : gmap string string) : Request :=
  mkRequest (method r) (url r) h (data r) (params r).

(** [JSON.parse(JSON.stringify(request))]: strings and the header map are
    copied as they are, the payload is cloned; a payload that is
    [undefined] is left out by the serialiser and reads [undefined]
    afterwards. *)
Definition clone_request (r : Request) : Request :=
  mkRequest (method r) (url r) (headers r) (clone_inner (data r))
            (clone_object (params r)).

Record TestCase := mkTestCase {
  type : string;
  description : string;
  request : Request;
  expectedStatus : Z;
  expectedResult : string
}.

(** [getStatusText] (lines 610-619) *)
Definition getStatusText (status : Z) : string :=
  match status with
  | 200 => "OK" | 201 => "Created" | 202 => "Accepted" | 204 => "No Content"
  | 400 => "Bad Request" | 401 => "Unauthorized" | 403 => "Forbidden"
  | 404 => "Not Found" | 409 => "Conflict" | 415 => "Unsupported Media Type"
  | 422 => "Unprocessable Entity" | 429 => "Too Many Requests"
  | 500 => "Internal Server Error" | 502 => "Bad Gateway"
  | 503 => "Service Unavailable"
  | _ => "Unknown"
  end.

(** ** The classifier: [isExpectedResult] (lines 695-705) *)

Definition isExpectedResult (actualStatus expectedStatus : Z) (testType : string) : bool :=
  if String.eqb testType "Positive" then
    (actualStatus =? expectedStatus) || (actualStatus =? 200) || (actualStatus =? 201)
  else if includes testType "Negative" || includes testType "Security"
          || includes testType "Edge" || includes testType "Fuzz" then
    400 <=? actualStatus
  else
    actualStatus =? expectedStatus.

(** ** Payload traversal: [traverseObject] (lines 478-487)

    The callback of every caller only reads [value] and [currentPath] and
    never writes to the object being walked, so the walk is the list of the
    callback's arguments, in call order. *)

Definition Visit : Type := jsval * list string.

Fixpoint traverse_value (v : jsval) (path : list string) : list Visit :=
  match v with
  | JObj fields =>
      flat_map (fun kv =>
                  let currentPath := (path ++ [fst kv])%list in
                  (snd kv, currentPath) :: traverse_value (snd kv) currentPath)
               fields
  | _ => []
  end.

Definition traverseObject (obj : jsobject) (path : list string) : list Visit :=
  traverse_value (JObj obj) path.

(** ** Path-set: [setNestedValue] (lines 489-508)

    The source walks a pointer [current] down the object and writes in
    place; here the walk rebuilds the object around the written child.
    [current] starts as a plain object and each round of the loop either
    returns or moves to a value it has just found (or made) to be a plain
    object, so it is a [jsobject] throughout.  The result is the object
    after the call together with the diagnostics logged.  A segment is
    read as an own property: the walk is that of the source along every
    path whose segments are own keys where they are read, or are not names
    of members of [Object.prototype]. *)

Definition skip_intermediate (path : list string) : string :=
  "Skipping modification of " +:+ join "." path +:+ " - intermediate value is not an object".

Fixpoint setNestedLoop (full : list string) (current : jsobject) (path : list string)
    (value : jsval) : jsobject * list string :=
  match path with
  | [] =>
      (* the loop does not run; [finalKey] is [path[-1]], that is
         [undefined], which names the property "undefined" *)
      (obj_set current "undefined" value, [])
  | key :: rest =>
      match rest with
      | [] => (obj_set current key value, [])
      | _ :: _ =>
          match obj_read current key with
          | JUndefined | JNull =>
              let '(child, lg) := setNestedLoop full [] rest value in
              (obj_set current key (JObj child), lg)
          | JObj child0 =>
              let '(child, lg) := setNestedLoop full child0 rest value in
              (obj_set current key (JObj child), lg)
          | _ => (current, [skip_intermediate full])
          end
      end
  end.

Definition setNestedValue (obj : jsobject) (path : list string) (value : jsval)
  : jsobject * list string :=
  setNestedLoop path obj path value.

(** ** Mutation generators

    Every generator is called by [generateTestCases] under the guard of line
    194, with [baseRequest.data] a plain object; on any other payload the
    embedding returns no test case.  Each returns the test cases it pushes,
    in push order.  [setNestedValue] cannot throw on a plain object, so the
    [catch] blocks around it are dead and are left out. *)

Definition payload_object (r : Request) : option jsobject :=
  match data r with JObj d => Some d | _ => None end.

Definition negative_case (ty desc : string) (baseRequest : Request) (modifiedData : jsobject)
  : TestCase :=
  mkTestCase ty desc (with_data baseRequest (JObj modifiedData)) 400 "400 Bad Request".

(** [delete modifiedData[field][nestedField]] on the clone, whose
    [field] holds a plain object whenever [data[field]] does. *)
Definition delete_nested (modifiedData : jsobject) (field nestedField : string) : jsobject :=
  match obj_read modifiedData field with
  | JObj child => obj_set modifiedData field (JObj (obj_delete child nestedField))
  | _ => modifiedData
  end.

(** [generateMissingFieldTests] (lines 215-249) *)
Definition generateMissingFieldTests (baseRequest : Request) : list TestCase :=
  match payload_object baseRequest with
  | None => []
  | Some data =>
      (* Missing top-level fields *)
      map (fun field =>
             let modifiedData := obj_delete (clone_object data) field in
             negative_case "Negative - Missing" ("Missing " +:+ field +:+ " field")
                           baseRequest modifiedData)
          (keys data)
      ++
      (* Missing nested fields *)
      flat_map (fun field =>
                  match obj_read data field with
                  | JObj nested =>
                      map (fun nestedField =>
                             let modifiedData :=
                               delete_nested (clone_object data) field nestedField in
                             negative_case "Negative - Missing"
                               ("Missing " +:+ field +:+ "." +:+ nestedField +:+ " field")
                               baseRequest modifiedData)
                          (keys nested)
                  | _ => []
                  end)
               (keys data)
  end.

(** One replacement of the value at [path] in a fresh clone of [data]. *)
Definition mutated (data : jsobject) (path : list string) (value : jsval) : jsobject :=
  fst (setNestedValue (clone_object data) path value).

(** [generateInvalidTypeTests] (lines 251-281) *)
Definition generateInvalidTypeTests (baseRequest : Request) : list TestCase :=
  match payload_object baseRequest with
  | None => []
  | Some data =>
      flat_map (fun '(value, path) =>
                  if typeof_string value then
                    [negative_case "Negative - Type"
                       ("Wrong type for " +:+ join "." path +:+ " (number instead of string)")
                       baseRequest (mutated data path (JInt 12345))]
                  else if typeof_number value then
                    [negative_case "Negative - Type"
                       ("Wrong type for " +:+ join "." path +:+ " (string instead of number)")
                       baseRequest (mutated data path (JStr "not_a_number"))]
                  else [])
               (traverseObject data [])
  end.

(** [generateNullValueTests] (lines 283-315) *)
Definition generateNullValueTests (baseRequest : Request) : list TestCase :=
  match payload_object baseRequest with
  | None => []
  | Some data =>
      flat_map (fun '(value, path) =>
                  negative_case "Negative - Null" ("Null value for " +:+ join "." path)
                                baseRequest (mutated data path JNull)
                  :: (if typeof_string value then
                        [negative_case "Negative - Empty"
                           ("Empty string for " +:+ join "." path)
                           baseRequest (mutated data path (JStr ""))]
                      else []))
               (traverseObject data [])
  end.

(** The attack table of [generateSecurityTests] (lines 319-326). *)
Definition attacks : list (string * string) :=
  [ ("XSS", "<script>alert(" +:+ dq +:+ "xss" +:+ dq +:+ ")</script>");
    ("SQL", "'; DROP TABLE users; --");
    ("NoSQL", "{" +:+ dq +:+ "$gt" +:+ dq +:+ ": " +:+ dq +:+ dq +:+ "}");
    ("LDAP", "*" +:+ ")(uid=" +:+ "*" +:+ "))(|(uid=" +:+ "*");
    ("Command", "; rm -rf /");
    ("Path", "../../../etc/passwd") ].

(** [generateSecurityTests] (lines 317-348) *)
Definition generateSecurityTests (baseRequest : Request) : list TestCase :=
  match payload_object baseRequest with
  | None => []
  | Some data =>
      flat_map (fun '(value, path) =>
                  if typeof_string value then
                    map (fun '(name, payload) =>
                           negative_case ("Security - " +:+ name)
                             (name +:+ " injection in " +:+ join "." path)
                             baseRequest (mutated data path (JStr payload)))
                        attacks
                  else [])
               (traverseObject data [])
  end.

(** [Number.MAX_SAFE_INTEGER] *)
Definition MAX_SAFE_INTEGER : Z := 2 ^ 53 - 1.

Definition special_characters : string :=
  "!@#$%^&*()_+{}[]|\:" +:+ dq +:+ ";'<>?,.`~".

Definition unicode_sample : string := "🚀💻🔥🎯📊✅❌🧪".

(** [generateEdgeCaseTests] (lines 350-417) *)
Definition generateEdgeCaseTests (baseRequest : Request) : list TestCase :=
  match payload_object baseRequest with
  | None => []
  | Some data =>
      flat_map (fun '(value, path) =>
                  ((if typeof_string value then
                     [ negative_case "Edge - Long" ("Very long string for " +:+ join "." path)
                         baseRequest (mutated data path (JStr (repeat_string "a" 1000)));
                       negative_case "Edge - Special" ("Special characters in " +:+ join "." path)
                         baseRequest (mutated data path (JStr special_characters));
                       negative_case "Edge - Unicode" ("Unicode characters in " +:+ join "." path)
                         baseRequest (mutated data path (JStr unicode_sample)) ]
                   else [])
                  ++
                  (if typeof_number value then
                     [ negative_case "Edge - Large" ("Maximum safe integer for " +:+ join "." path)
                         baseRequest (mutated data path (JInt MAX_SAFE_INTEGER));
                       negative_case "Edge - Negative"
                         ("Large negative number for " +:+ join "." path)
                         baseRequest (mutated data path (JInt (-999999))) ]
                   else []))%list)
               (traverseObject data [])
  end.

(** *** Fuzz cases: [generateFuzzTests] (lines 419-449)

    [Math.random] is a source of draws: [rand k] is the value of the [k]-th
    call, read as an exact rational, and the number of calls made so far is
    threaded through.  The two container literals of [fuzzValues] are
    copied at each draw; the source hands out the same two objects every
    time, so the contents of a Fuzz payload agree with the source on the
    runs that never write through a drawn [{}]. *)

Definition fuzzValues : list jsval :=
  [ JUndefined; JArr []; JObj []; JStr "null"; JStr "undefined"; JStr "[]"; JStr "{}";
    JStr "true"; JStr "false" ].

(** [Math.random() < 0.4] *)
Definition below_threshold (r : Q) : bool := negb (Qle_bool (4 # 10) r).

(** [fuzzValues[Math.floor(r * fuzzValues.length)]]; a read outside the
    array yields [undefined]. *)
Definition pick_fuzz (r : Q) : jsval :=
  let i := Qfloor (r * inject_Z (Z.of_nat (length fuzzValues))) in
  if i <? 0 then JUndefined else nth (Z.to_nat i) fuzzValues JUndefined.

(** The callback of line 427, applied to one visit. *)
Definition fuzz_visit (rand : nat -> Q) (st : jsobject * nat) (v : Visit) : jsobject * nat :=
  let '(modifiedData, n) := st in
  if below_threshold (rand n) then
    (fst (setNestedValue modifiedData (snd v) (pick_fuzz (rand (S n)))), S (S n))
  else (modifiedData, S n).

(** One round of the [for] loop. *)
Definition fuzz_round (rand : nat -> Q) (baseRequest : Request) (data : jsobject)
    (i : nat) (n : nat) : TestCase * nat :=
  let '(modifiedData, n') :=
    fold_left (fuzz_visit rand) (traverseObject data []) (clone_object data, n) in
  (mkTestCase "Fuzz" ("Random fuzz test #" +:+ Z_to_string (Z.of_nat (i + 1)))
              (with_data baseRequest (JObj modifiedData)) 400 "Varies",
   n').

Fixpoint fuzz_rounds (rand : nat -> Q) (baseRequest : Request) (data : jsobject)
    (i count : nat) (n : nat) : list TestCase * nat :=
  match count with
  | O => ([], n)
  | S count' =>
      let '(tc, n1) := fuzz_round rand baseRequest data i n in
      let '(tcs, n2) := fuzz_rounds rand baseRequest data (S i) count' n1 in
      (tc :: tcs, n2)
  end.

Definition generateFuzzTests (rand : nat -> Q) (n : nat) (baseRequest : Request)
  : list TestCase * nat :=
  match payload_object baseRequest with
  | None => ([], n)
  | Some data => fuzz_rounds rand baseRequest data 0 5 n
  end.

(** *** Header variants: [generateHeaderTests] (lines 451-475) *)

(** [headers['Content-Type']] as a condition: the property is present and
    its value is not the empty string. *)
Definition has_content_type (h : gmap string string) : bool :=
  match h !! "Content-Type" with
  | Some v => negb (String.eqb v "")
  | None => false
  end.

Definition generateHeaderTests (baseRequest : Request) : list TestCase :=
  if has_content_type (headers baseRequest) then
    let noContentType :=
      let c := clone_request baseRequest in
      with_headers c (delete "Content-Type" (headers c)) in
    let wrongContentType :=
      let c := clone_request baseRequest in
      with_headers c (<["Content-Type" := "text/plain"]> (headers c)) in
    [ mkTestCase "Negative - Header" "Missing Content-Type header" noContentType
                 415 "415 Unsupported Media Type";
      mkTestCase "Negative - Header" "Wrong Content-Type (text/plain)" wrongContentType
                 415 "415 Unsupported Media Type" ]
  else [].

(** ** [generateTestCases] (lines 172-213) *)

Definition generateTestCases (rand : nat -> Q) (parsedCurl : Request) (expectedStatus : Z)
  : list TestCase :=
  let baseRequest := clone_request parsedCurl in
  [ mkTestCase "Positive" "Valid input data" (clone_request baseRequest) expectedStatus
               (Z_to_string expectedStatus +:+ " " +:+ getStatusText expectedStatus) ]
  ++ (if truthy (data baseRequest) && is_plain_object (data baseRequest) then
        generateMissingFieldTests baseRequest
        ++ generateInvalidTypeTests baseRequest
        ++ generateNullValueTests baseRequest
        ++ generateSecurityTests baseRequest
        ++ generateEdgeCaseTests baseRequest
        ++ fst (generateFuzzTests rand 0 baseRequest)
      else [])
  ++ (if (0 <? size (headers baseRequest))%nat then generateHeaderTests baseRequest
      else []).

(** ** Regular expressions

    The patterns of [parseCurl] and of its helpers are regular-expression
    literals.  They are written here as syntax trees and run by a
    backtracking matcher in continuation-passing style, the way ECMAScript
    defines matching: alternatives are tried left to right, a greedy
    quantifier tries one more round before it tries to stop, a lazy one the
    other way round, and a round of a quantifier that consumes nothing is
    rejected.  Text is a sequence of bytes; this agrees with the source on
    ASCII input. *)

Module Regex.

Inductive citem :=
| IChar (c : ascii)     (* a literal member of a class *)
| ISpace                (* \s *)
| IWord.                (* \w *)

Inductive regex :=
| RChar (c : ascii)
| RSet (negated : bool) (items : list citem)
| RBol                                   (* ^ *)
| REol                                   (* $ *)
| REmpty
| RSeq (a b : regex)
| RAlt (a b : regex)
| RStar (greedy : bool) (a : regex)
| RGroup (n : nat) (a : regex).          (* the n-th capturing group *)

Record flags := mkFlags { ignoreCase : bool }.

Definition captures := list (nat * string).

Definition code (c : ascii) : N := N_of_ascii c.

Definition is_space (c : ascii) : bool :=
  let n := code c in ((9 <=? n) && (n <=? 13) || (n =? 32))%N.

Definition is_upper (c : ascii) : bool := let n := code c in ((65 <=? n) && (n <=? 90))%N.
Definition is_lower (c : ascii) : bool := let n := code c in ((97 <=? n) && (n <=? 122))%N.
Definition is_digit (c : ascii) : bool := let n := code c in ((48 <=? n) && (n <=? 57))%N.

Definition is_word (c : ascii) : bool :=
  is_upper c || is_lower c || is_digit c || (code c =? 95)%N.

Definition upper_char (c : ascii) : ascii :=
  if is_lower c then ascii_of_N (code c - 32) else c.

Definition canonicalize (fl : flags) (c : ascii) : ascii :=
  if ignoreCase fl then upper_char c else c.

Definition item_matches (fl : flags) (i : citem) (c : ascii) : bool :=
  match i with
  | IChar x => Ascii.eqb (canonicalize fl x) (canonicalize fl c)
  | ISpace => is_space c
  | IWord => is_word c
  end.

Definition set_matches (fl : flags) (negated : bool) (items : list citem) (c : ascii) : bool :=
  xorb negated (existsb (fun i => item_matches fl i c) items).

Definition set_capture (n : nat) (text : string) (caps : captures) : captures :=
  (n, text) :: List.filter (fun p => negb (Nat.eqb (fst p) n)) caps.

Definition capture (caps : captures) (n : nat) : option string :=
  snd <$> find (fun p => Nat.eqb (fst p) n) caps.

Definition Cont : Type := list ascii -> captures -> option (list ascii * captures).

Definition or_else {A} (x y : option A) : option A :=
  match x with Some _ => x | None => y end.

(** [total] is the length of the whole input, [s] what is left of it. *)
Fixpoint rmatch (fl : flags) (total : nat) (r : regex)
    (s : list ascii) (caps : captures) (k : Cont) {struct r}
  : option (list ascii * captures) :=
  match r with
  | RChar c =>
      match s with
      | x :: rest =>
          if Ascii.eqb (canonicalize fl c) (canonicalize fl x) then k rest caps else None
      | [] => None
      end
  | RSet negated items =>
      match s with
      | x :: rest => if set_matches fl negated items x then k rest caps else None
      | [] => None
      end
  | RBol => if Nat.eqb (length s) total then k s caps else None
  | REol => match s with [] => k s caps | _ => None end
  | REmpty => k s caps
  | RSeq a b => rmatch fl total a s caps (fun s' caps' => rmatch fl total b s' caps' k)
  | RAlt a b => or_else (rmatch fl total a s caps k) (rmatch fl total b s caps k)
  | RStar greedy a =>
      (fix rounds (fuel : nat) (s : list ascii) (caps : captures) {struct fuel} :=
         match fuel with
         | O => k s caps
         | S fuel' =>
             let again :=
               rmatch fl total a s caps
                 (fun s' caps' =>
                    if (length s' <? length s)%nat then rounds fuel' s' caps' else None) in
             if greedy then or_else again (k s caps) else or_else (k s caps) again
         end) (length s) s caps
  | RGroup n a =>
      rmatch fl total a s caps
        (fun s' caps' =>
           k s' (set_capture n (string_of_list_ascii (take (length s - length s') s)) caps'))
  end.

Record MatchResult := mkMatch {
  index : nat;            (* where the match starts *)
  matched : string;       (* match[0] *)
  groups : captures;      (* match[1], match[2], ... *)
  after : list ascii      (* the input that follows the match *)
}.

(** The first position, from the left, at which the pattern matches. *)
Fixpoint search (fl : flags) (total : nat) (r : regex) (s : list ascii) (idx : nat)
  : option MatchResult :=
  match rmatch fl total r s [] (fun s' caps' => Some (s', caps')) with
  | Some (s', caps') =>
      Some (mkMatch idx (string_of_list_ascii (take (length s - length s') s)) caps' s')
  | None =>
      match s with
      | [] => None
      | _ :: rest => search fl total r rest (S idx)
      end
  end.

(** [str.match(re)] and [re.exec(str)] for a pattern without the [g] flag. *)
Definition exec (fl : flags) (r : regex) (str : string) : option MatchResult :=
  let s := list_ascii_of_string str in
  search fl (length s) r s 0.

(** All matches of a pattern with the [g] flag, left to right, as the loop
    [while ((m = re.exec(str)) !== null)] sees them.  None of the patterns
    used with [g] matches the empty string, so [lastIndex] always moves. *)
Fixpoint exec_all_from (fuel : nat) (fl : flags) (total : nat) (r : regex)
    (s : list ascii) (idx : nat) : list MatchResult :=
  match fuel with
  | O => []
  | S fuel' =>
      match search fl total r s idx with
      | None => []
      | Some m =>
          if (length (after m) <? length s)%nat then
            m :: exec_all_from fuel' fl total r (after m) (total - length (after m))
          else [m]
      end
  end.

Definition exec_all (fl : flags) (r : regex) (str : string) : list MatchResult :=
  let s := list_ascii_of_string str in
  exec_all_from (S (length s)) fl (length s) r s 0.

(** [str.replace(re, by)] without the [g] flag; [by] has no [$] pattern. *)
Definition replace (fl : flags) (r : regex) (by_ : string) (str : string) : string :=
  match exec fl r str with
  | None => str
  | Some m =>
      string_of_list_ascii (take (index m) (list_ascii_of_string str))
      +:+ by_ +:+ string_of_list_ascii (after m)
  end.

(** [str.replace(re, by)] with the [g] flag. *)
Fixpoint replace_all_from (fuel : nat) (fl : flags) (total : nat) (r : regex) (by_ : string)
    (s : list ascii) : string :=
  match fuel with
  | O => string_of_list_ascii s
  | S fuel' =>
      match search fl total r s 0 with
      | None => string_of_list_ascii s
      | Some m =>
          if (length (after m) <? length s)%nat then
            string_of_list_ascii (take (index m) s) +:+ by_
            +:+ replace_all_from fuel' fl total r by_ (after m)
          else string_of_list_ascii s
      end
  end.

Definition replace_all (fl : flags) (r : regex) (by_ : string) (str : string) : string :=
  let s := list_ascii_of_string str in
  replace_all_from (S (length s)) fl (length s) r by_ s.

(** Builders for the syntax of the literals. *)
Fixpoint lit_chars (l : list ascii) : regex :=
  match l with
  | [] => REmpty
  | [c] => RChar c
  | c :: rest => RSeq (RChar c) (lit_chars rest)
  end.

Definition lit (s : string) : regex := lit_chars (list_ascii_of_string s).
Definition plus (a : regex) : regex := RSeq a (RStar true a).
Definition star (a : regex) : regex := RStar true a.
Definition lazy_star (a : regex) : regex := RStar false a.
Definition opt (a : regex) : regex := RAlt a REmpty.
Definition space : regex := RSet false [ISpace].
Definition word : regex := RSet false [IWord].
Definition none_of (s : string) : regex := RSet true (map IChar (list_ascii_of_string s)).
Definition one_of (s : string) : regex := RSet false (map IChar (list_ascii_of_string s)).
Definition not_space_or (s : string) : regex :=
  RSet true (ISpace :: map IChar (list_ascii_of_string s)).

Fixpoint seq (l : list regex) : regex :=
  match l with
  | [] => REmpty
  | [a] => a
  | a :: rest => RSeq a (seq rest)
  end.

End Regex.

(** ** String methods and [JSON.parse] *)

Fixpoint drop_space (s : list ascii) : list ascii :=
  match s with
  | c :: rest => if Regex.is_space c then drop_space rest else s
  | [] => []
  end.

(** [s.trim()] *)
Definition trim (s : string) : string :=
  string_of_list_ascii
    (rev (drop_space (rev (drop_space (list_ascii_of_string s))))).

(** [s.toUpperCase()] *)
Definition toUpperCase (s : string) : string :=
  string_of_list_ascii (map Regex.upper_char (list_ascii_of_string s)).

(** [s.indexOf(sub)]; [None] stands for [-1]. *)
Definition indexOf (s sub : string) : option nat := String.index 0 sub s.

Module Json.

(** JSON white space: space, tab, line feed, carriage return. *)
Definition is_ws (c : ascii) : bool :=
  let n := N_of_ascii c in ((n =? 32) || (n =? 9) || (n =? 10) || (n =? 13))%N.

Fixpoint skip_ws (s : list ascii) : list ascii :=
  match s with
  | c :: rest => if is_ws c then skip_ws rest else s
  | [] => []
  end.

Definition digit_value (c : ascii) : option Z :=
  if Regex.is_digit c then Some (Z.of_N (N_of_ascii c) - 48) else None.

(** The longest run of digits at the head of [s]: its value continued from
    [acc], how many there are, and what follows. *)
Fixpoint digits (s : list ascii) (acc : Z) (count : nat) : Z * nat * list ascii :=
  match s with
  | c :: rest =>
      match digit_value c with
      | Some d => digits rest (acc * 10 + d) (S count)
      | None => (acc, count, s)
      end
  | [] => (acc, count, s)
  end.

(** A JSON number: an optional minus sign, an integer part without a
    superfluous leading zero, an optional fraction, an optional exponent. *)
Definition number (s : list ascii) : option (jsnum * list ascii) :=
  let '(negative, s1) :=
    match s with "-"%char :: rest => (true, rest) | _ => (false, s) end in
  let '(int_part, n_int, s2) := digits s1 0 0 in
  let leading_zero := match s1 with "0"%char :: _ => true | _ => false end in
  if (n_int =? 0)%nat || (leading_zero && (1 <? n_int)%nat) then None else
  let frac :=
    match s2 with
    | "."%char :: rest =>
        let '(m, n_frac, s3) := digits rest int_part 0 in
        if (n_frac =? 0)%nat then None else Some (m, Z.of_nat n_frac, s3)
    | _ => Some (int_part, 0, s2)
    end in
  match frac with
  | None => None
  | Some (m, shift, s3) =>
      let signed := if negative then - m else m in
      match s3 with
      | c :: rest =>
          if Ascii.eqb c "e" || Ascii.eqb c "E" then
            let '(exp_negative, s4) :=
              match rest with
              | "-"%char :: r => (true, r)
              | "+"%char :: r => (false, r)
              | _ => (false, rest)
              end in
            let '(e, n_exp, s5) := digits s4 0 0 in
            if (n_exp =? 0)%nat then None
            else Some (JsNum signed ((if exp_negative then - e else e) - shift), s5)
          else Some (JsNum signed (- shift), s3)
      | [] => Some (JsNum signed (- shift), s3)
      end
  end.

Definition hex_value (c : ascii) : option N :=
  let n := N_of_ascii c in
  if Regex.is_digit c then Some (n - 48)%N
  else if ((97 <=? n) && (n <=? 102))%N then Some (n - 87)%N
  else if ((65 <=? n) && (n <=? 70))%N then Some (n - 55)%N
  else None.

(** A code unit written as bytes (UTF-8). *)
Definition encode (n : N) : list ascii :=
  if (n <? 128)%N then [ascii_of_N n]
  else if (n <? 2048)%N then
    [ascii_of_N (192 + n / 64); ascii_of_N (128 + n mod 64)]
  else
    [ascii_of_N (224 + n / 4096); ascii_of_N (128 + (n / 64) mod 64);
     ascii_of_N (128 + n mod 64)].

(** The characters of a string literal after its opening quote. *)
Fixpoint string_body (fuel : nat) (s : list ascii) (acc : list ascii)
  : option (string * list ascii) :=
  match fuel with
  | O => None
  | S fuel' =>
      match s with
      | [] => None
      | c :: rest =>
          if Ascii.eqb c "034" then Some (string_of_list_ascii (rev acc), rest)
          else if Ascii.eqb c "\" then
            match rest with
            | e :: rest' =>
                let simple (x : ascii) := string_body fuel' rest' (x :: acc) in
                if Ascii.eqb e "034" then simple "034"%char
                else if Ascii.eqb e "\" then simple "\"%char
                else if Ascii.eqb e "/" then simple "/"%char
                else if Ascii.eqb e "b" then simple "008"%char
                else if Ascii.eqb e "f" then simple "012"%char
                else if Ascii.eqb e "n" then simple "010"%char
                else if Ascii.eqb e "r" then simple "013"%char
                else if Ascii.eqb e "t" then simple "009"%char
                else if Ascii.eqb e "u" then
                  match rest' with
                  | h1 :: h2 :: h3 :: h4 :: rest'' =>
                      match hex_value h1, hex_value h2, hex_value h3, hex_value h4 with
                      | Some a, Some b, Some c', Some d =>
                          string_body fuel' rest''
                            (rev (encode (((a * 16 + b) * 16 + c') * 16 + d)%N) ++ acc)%list
                      | _, _, _, _ => None
                      end
                  | _ => None
                  end
                else None
            | [] => None
            end
          else if (N_of_ascii c <? 32)%N then None
          else string_body fuel' rest (c :: acc)
      end
  end.

Definition starts_with (p : string) (s : list ascii) : option (list ascii) :=
  let pl := list_ascii_of_string p in
  if bool_decide (take (length pl) s = pl) then Some (drop (length pl) s) else None.

(** [value] reads one value; [elements] reads the items of an array up to
    its closing bracket and [members] the properties of an object up to its
    closing brace.  A repeated key keeps its first place and takes the last
    value. *)
Fixpoint value (fuel : nat) (s : list ascii) : option (jsval * list ascii) :=
  match fuel with
  | O => None
  | S fuel' =>
      match skip_ws s with
      | [] => None
      | c :: rest =>
          if Ascii.eqb c "{" then
            match skip_ws rest with
            | "}"%char :: r => Some (JObj [], r)
            | _ => members fuel' rest []
            end
          else if Ascii.eqb c "[" then
            match skip_ws rest with
            | "]"%char :: r => Some (JArr [], r)
            | _ => elements fuel' rest []
            end
          else if Ascii.eqb c "034" then
            match string_body (S (length rest)) rest [] with
            | Some (str, r) => Some (JStr str, r)
            | None => None
            end
          else
            match starts_with "null" (c :: rest), starts_with "true" (c :: rest),
                  starts_with "false" (c :: rest) with
            | Some r, _, _ => Some (JNull, r)
            | _, Some r, _ => Some (JBool true, r)
            | _, _, Some r => Some (JBool false, r)
            | None, None, None =>
                match number (c :: rest) with
                | Some (n, r) => Some (JNum n, r)
                | None => None
                end
            end
      end
  end
with elements (fuel : nat) (s : list ascii) (acc : list jsval)
  : option (jsval * list ascii) :=
  match fuel with
  | O => None
  | S fuel' =>
      match value fuel' s with
      | Some (v, r) =>
          match skip_ws r with
          | c :: r' =>
              if Ascii.eqb c "," then elements fuel' r' (acc ++ [v])
              else if Ascii.eqb c "]" then Some (JArr (acc ++ [v]), r')
              else None
          | [] => None
          end
      | None => None
      end
  end
with members (fuel : nat) (s : list ascii) (acc : jsobject)
  : option (jsval * list ascii) :=
  match fuel with
  | O => None
  | S fuel' =>
      match skip_ws s with
      | q :: r0 =>
          if Ascii.eqb q "034" then
            match string_body (S (length r0)) r0 [] with
            | Some (key, r1) =>
                match skip_ws r1 with
                | colon :: r2 =>
                    if Ascii.eqb colon ":" then
                      match value fuel' r2 with
                      | Some (v, r3) =>
                          match skip_ws r3 with
                          | c :: r4 =>
                              if Ascii.eqb c "," then members fuel' r4 (obj_set acc key v)
                              else if Ascii.eqb c "}" then Some (JObj (obj_set acc key v), r4)
                              else None
                          | [] => None
                          end
                      | None => None
                      end
                    else None
                | [] => None
                end
            | None => None
            end
          else None
      | [] => None
      end
  end.

(** [JSON.parse(text)]; [None] is a [SyntaxError]. *)
Definition parse (text : string) : option jsval :=
  let s := list_ascii_of_string text in
  match value (2 * length s + 2) s with
  | Some (v, r) => match skip_ws r with [] => Some v | _ => None end
  | None => None
  end.

End Json.

(** ** Exceptions

    How a call completes: it returns a value or it throws.  [try_catch] is
    a [try] block with its [catch] clause. *)

Inductive Completion (A : Type) :=
| Returns (a : A)
| Throws (name : string).
Arguments Returns {A} a.
Arguments Throws {A} name.

Global Instance completion_ret : MRet Completion := @Returns.

Global Instance completion_bind : MBind Completion :=
  fun A B (k : A -> Completion B) (c : Completion A) =>
    match c with
    | Returns a => k a
    | Throws name => Throws name
    end.

Global Instance completion_fmap : FMap Completion :=
  fun A B (f : A -> B) (c : Completion A) =>
    match c with
    | Returns a => Returns (f a)
    | Throws name => Throws name
    end.

Definition try_catch {A} (body : Completion A) (handler : string -> Completion A)
  : Completion A :=
  match body with
  | Returns a => Returns a
  | Throws name => handler name
  end.

(** [JSON.parse(text)], which throws a [SyntaxError] on malformed text. *)
Definition JSON_parse (text : string) : Completion jsval :=
  match Json.parse text with
  | Some v => Returns v
  | None => Throws "SyntaxError"
  end.

(** [Object.keys(v)], which throws a [TypeError] on [null] and on
    [undefined]; an array or a string has its indices for keys, a number or
    a boolean has none. *)
Definition Object_keys (v : jsval) : Completion (list string) :=
  let indices (n : nat) := map (fun i => Z_to_string (Z.of_nat i)) (seq 0 n) in
  match v with
  | JUndefined | JNull => Throws "TypeError"
  | JObj o => Returns (keys o)
  | JArr items => Returns (indices (length items))
  | JStr s => Returns (indices (String.length s))
  | JBool _ | JNum _ => Returns []
  end.

(** ** The extractor: [parseCurl] (lines 28-96) and its helpers *)

Import Regex.

Definition quotes : string := "'" +:+ dq.

Definition no_flags : flags := mkFlags false.

Definition absolute_url (tail : regex) : regex :=
  seq [lit "http"; opt (RChar "s"); lit "://"; plus tail].

(** [urlPatterns] (lines 45-51) *)
Definition urlPatterns : list regex :=
  [ seq [lit "'"; RGroup 1 (absolute_url (none_of "'")); lit "'"];
    seq [lit dq; RGroup 1 (absolute_url (none_of dq)); lit dq];
    seq [lit "--location"; plus space; one_of quotes; RGroup 1 (plus (none_of quotes));
         one_of quotes];
    seq [lit "curl"; plus space; one_of quotes; RGroup 1 (plus (none_of quotes));
         one_of quotes];
    RGroup 1 (absolute_url (not_space_or quotes)) ].

(** The [for] loop of lines 53-60: the first pattern that matches gives
    the URL; [None] when none does, and [parsed.url] keeps its initial
    value, the empty string. *)
Fixpoint extract_url (patterns : list regex) (curlCommand : string) : option string :=
  match patterns with
  | [] => None
  | pattern :: rest =>
      match exec no_flags pattern curlCommand with
      | Some m => Some (default "" (capture (groups m) 1))
      | None => extract_url rest curlCommand
      end
  end.

(** [/-X\s+(\w+)|--request\s+(\w+)/i] (line 63) *)
Definition methodPattern : regex :=
  RAlt (seq [lit "-X"; plus space; RGroup 1 (plus word)])
       (seq [lit "--request"; plus space; RGroup 2 (plus word)]).

(** [(methodMatch[1] || methodMatch[2]).toUpperCase()], when the pattern
    matches. *)
Definition method_flag (curlCommand : string) : option string :=
  match exec (mkFlags true) methodPattern curlCommand with
  | Some m =>
      let first :=
        match capture (groups m) 1 with
        | Some g => if String.eqb g "" then capture (groups m) 2 else Some g
        | None => capture (groups m) 2
        end in
      Some (toUpperCase (default "" first))
  | None => None
  end.

(** The header pattern of line 70, used with the [g] flag. *)
Definition headerPattern : regex :=
  seq [RAlt (lit "--header") (lit "-H"); plus space; one_of quotes;
       RGroup 1 (plus (none_of quotes)); one_of quotes].

(** One round of the [while] loop of lines 72-81. *)
Definition add_header (h : gmap string string) (m : MatchResult) : gmap string string :=
  let header := default "" (capture (groups m) 1) in
  match indexOf header ":" with
  | Some colonIndex =>
      if (0 <? colonIndex)%nat then
        let key := trim (String.substring 0 colonIndex header) in
        let value :=
          trim (String.substring (colonIndex + 1)
                                 (String.length header - (colonIndex + 1)) header) in
        <[key := value]> h
      else h
  | None => h
  end.

Definition extract_headers (curlCommand : string) : gmap string string :=
  fold_left add_header (exec_all no_flags headerPattern curlCommand) ∅.

(** [dataPatterns] (lines 102-107); the [s] flag has no effect on them,
    they have no dot. *)
Definition data_pattern (flag quote : string) : regex :=
  seq [lit flag; plus space; lit quote;
       RGroup 1 (seq [plus (none_of quote);
                      lazy_star (seq [lit quote; star (none_of quote); lit quote;
                                      star (none_of quote)])]);
       lit quote].

Definition dataPatterns : list regex :=
  [ data_pattern "--data" "'"; data_pattern "--data" dq;
    data_pattern "-d" "'"; data_pattern "-d" dq ].

(** [fixJsonString] (lines 151-158) *)
Definition fixJsonString (jsonStr : string) : string :=
  let around (c : string) := seq [star space; lit c; star space] in
  trim (replace_all no_flags (around "}") "}"
         (replace_all no_flags (around "{") "{"
           (replace_all no_flags (around ",") ","
             (replace_all no_flags (around ":") ":" jsonStr)))).

(** [reconstructMacBookJSON] (lines 160-170) *)
Definition reconstructMacBookJSON : jsval :=
  JObj [ ("name", JStr "Apple MacBook Pro 16");
         ("data", JObj [ ("year", JInt 2019);
                         ("price", JNum (JsNum 184999 (-2)));
                         ("CPU model", JStr "Intel Core i9");
                         ("Hard disk size", JStr "1 TB") ]) ].

(** The body of the loop of lines 109-139 for one pattern: [Some v] when
    it makes the function return [v], [None] when the loop goes on.  The
    two replacements that clean the text cannot throw and are done before
    the parse, so the [catch] clause sees the cleaned text.
    [Object.keys(parsed)] stands in the logging line of the [try] block. *)
Definition try_pattern (pattern : regex) (command : string) : Completion (option jsval) :=
  match exec no_flags pattern command with
  | Some m =>
      match capture (groups m) 1 with
      | Some g =>
          if String.eqb g "" then mret None else
          let dataStr :=
            replace no_flags (seq [star space; lit "}"; star space; REol]) "}"
              (replace no_flags (seq [RBol; star space; lit "{"; star space]) "{"
                 (trim g)) in
          try_catch
            (parsed ← JSON_parse dataStr;
             _ ← Object_keys parsed;
             mret (Some parsed))
            (fun error =>
               try_catch
                 (parsed ← JSON_parse (fixJsonString dataStr);
                  mret (Some parsed))
                 (fun fixError => mret None))
      | None => mret None
      end
  | None => mret None
  end.

Fixpoint try_patterns (patterns : list regex) (command : string)
  : Completion (option jsval) :=
  match patterns with
  | [] => mret None
  | pattern :: rest =>
      found ← try_pattern pattern command;
      match found with
      | Some v => mret (Some v)
      | None => try_patterns rest command
      end
  end.

(** [extractDataAggressively] (lines 98-149) *)
Definition extractDataAggressively (command : string) : Completion jsval :=
  found ← try_patterns dataPatterns command;
  match found with
  | Some v => mret v
  | None =>
      mret (if includes command "api.restful-api.dev/objects" then reconstructMacBookJSON
            else JNull)
  end.

(** Lines 86-90: auto-detect POST method if data exists. *)
Definition promote (data : jsval) (method : string) : string :=
  if truthy data && String.eqb method "GET" then "POST" else method.

(** [parseCurl] (lines 28-96) *)
Definition parseCurl (curlCommand : string) : Completion Request :=
  let url := default "" (extract_url urlPatterns curlCommand) in
  let method := default "GET" (method_flag curlCommand) in
  let headers := extract_headers curlCommand in
  data ← extractDataAggressively curlCommand;
  mret (mkRequest (promote data method) url headers data []).

(** ** The executor: [executeRequest] (lines 511-598)

    What the network does with a request is not the program's to decide:
    [net k r] is what happens to the request [r] when [k] requests have
    been put on the wire before it.  The four events are the four places
    where the promise is resolved; the last one stands for an exception
    in the [try] block before anything is sent, such as a URL that
    [new URL] rejects.  The wait of 15 seconds that leads to the timeout
    event is the network's business too. *)

Inductive NetEvent :=
| Responded (statusCode : Z) (body : string)   (* the response's 'end' event *)
| RequestError (message : string)              (* the request's 'error' event *)
| RequestTimeout                               (* the request's 'timeout' event *)
| SetupError (message : string).               (* an exception before the request is
                                                  sent, caught at line 590 *)

Record Outcome := mkOutcome {
  status : Z;
  error : option string;
  body : option string
}.

(** The outcome, and the requests put on the wire so far. *)
Definition executeRequest (net : nat -> Request -> NetEvent) (sent : list Request)
    (request : Request) : Outcome * list Request :=
  match net (length sent) request with
  | Responded statusCode body => (mkOutcome statusCode None (Some body), sent ++ [request])
  | RequestError message => (mkOutcome 0 (Some message) None, sent ++ [request])
  | RequestTimeout => (mkOutcome 0 (Some "Request timeout") None, sent ++ [request])
  | SetupError message => (mkOutcome 0 (Some message) None, sent)
  end.

(** *** What is handed to [lib.request] (lines 519-541)

    The headers of [options] are a copy of those of the request.  When
    the payload is truthy, the number of bytes of the body is added under
    [Content-Length], and [application/json] under [Content-Type] unless a
    truthy value is there.  [stringify] is [JSON.stringify] on an object or
    an array; a text is a sequence of bytes, so its number of bytes is its
    length.  A payload that is a number or [true] goes to
    [Buffer.byteLength] as it is, which throws a [TypeError]; the exception
    is caught at line 590.  The URL is taken to be one that [new URL]
    accepts. *)





(** ** The run: [runTests] (lines 621-693) *)

Record Verdict := mkVerdict {
  testName : string;
  responseCode : Z;
  expected : Z;
  actual : Z;
  passed : bool;
  verdict_error : option string;
  testCase : TestCase
}.

Record RunState := mkRunState {
  results : list Verdict;      (* this.results *)
  passCount : nat;
  failCount : nat;
  wire : list Request          (* the requests sent so far *)
}.

(** Lines 657-666: a response with status 0 is an error and counts as a
    failure; any other is put to [isExpectedResult]. *)
Definition judged (response : Outcome) (tc : TestCase) : bool :=
  if status response =? 0 then false
  else isExpectedResult (status response) (expectedStatus tc) (type tc).

(** The body of the loop of lines 643-690 for one test case.  The promise
    of [executeRequest] is never rejected, so the [catch] of line 685 is not
    entered; the pause of 100 ms between two test cases has no effect on
    the results. *)
Definition run_one (net : nat -> Request -> NetEvent) (st : RunState) (tc : TestCase)
  : RunState :=
  let '(response, wire') := executeRequest net (wire st) (request tc) in
  let pass := judged response tc in
  mkRunState
    (results st ++ [ mkVerdict (type tc +:+ " - " +:+ description tc)
                               (status response) (expectedStatus tc) (status response)
                               pass (error response) tc ])
    (if pass then S (passCount st) else passCount st)
    (if pass then failCount st else S (failCount st))
    wire'.

(** What a call of [runTests] leaves behind. *)
Record Run := mkRun {
  parsed : Request;                 (* what [parseCurl] returned *)
  generated : list TestCase;        (* the test cases generated *)
  final : RunState;
  summary : option (nat * nat)      (* the counts given to [printSummary], if it ran *)
}.

(** [before] is [this.results] when the call starts.  An exception of
    [parseCurl] would not be caught here. *)
Definition runTests (rand : nat -> Q) (net : nat -> Request -> NetEvent)
    (before : list Verdict) (curlCommand : string) (expectedStatus : Z)
  : Completion Run :=
  parsed ← parseCurl curlCommand;
  let start := mkRunState before 0 0 [] in
  if String.eqb (url parsed) "" then
    (* 'Could not extract URL from curl command'; return *)
    mret (mkRun parsed [] start None)
  else
    let testCases := generateTestCases rand parsed expectedStatus in
    let final := fold_left (run_one net) testCases start in
    mret (mkRun parsed testCases final (Some (passCount final, failCount final))).

(** *** The security assessment of [printSummary] (lines 719-721)

    The results whose name contains the word, and how many of them passed;
    [results] is [this.results], with the results of earlier runs of the
    same tester in it. *)

Definition securityTests (results : list Verdict) : list Verdict :=
  List.filter (fun r => includes (testName r) "Security") results.

Definition securityPassed (results : list Verdict) : nat :=
  length (List.filter passed (securityTests results)).

(** ** The command line

    [parseArguments] (lines 1255-1282), [main] (lines 1330-1353),
    [getMultilineInput] (lines 1210-1221) and [runInteractiveMode] (lines
    1229-1253).  [argv] is [process.argv.slice(2)]. *)

Module Cli.

Definition radix_digit (radix : Z) (c : ascii) : option Z :=
  match Json.hex_value c with
  | Some d => if Z.of_N d <? radix then Some (Z.of_N d) else None
  | None => None
  end.

(** The longest run of digits at the head of [s]: its value continued from
    [acc], and how many there are. *)
Fixpoint radix_digits (radix : Z) (s : list ascii) (acc : Z) (count : nat) : Z * nat :=
  match s with
  | c :: rest =>
      match radix_digit radix c with
      | Some d => radix_digits radix rest (acc * radix + d) (S count)
      | None => (acc, count)
      end
  | [] => (acc, count)
  end.

(** [parseInt(text)] without a radix: leading white space, a sign, the
    prefix [0x] or [0X] for base 16, then the longest run of digits;
    [None] is [NaN].  The value is the exact integer, which is what the
    source computes below 2^53. *)
Definition parseInt (text : string) : option Z :=
  let s := drop_space (list_ascii_of_string text) in
  let '(negative, s1) :=
    match s with
    | "-"%char :: rest => (true, rest)
    | "+"%char :: rest => (false, rest)
    | _ => (false, s)
    end in
  let '(radix, s2) :=
    match s1 with
    | "0"%char :: x :: rest =>
        if Ascii.eqb x "x" || Ascii.eqb x "X" then (16, rest) else (10, s1)
    | _ => (10, s1)
    end in
  let '(value, count) := radix_digits radix s2 0 0 in
  if (count =? 0)%nat then None else Some (if negative then - value else value).

(** [curl] is [None] for [null] and for [undefined]. *)
Record Options := mkOptions {
  interactive : bool;
  curl : option string;
  status : Z;
  help : bool
}.

(** [parseInt(args[++i]) || 201]; [value] is [None] when the flag is the
    last argument, and [parseInt(undefined)] is [NaN]. *)
Definition status_of (value : option string) : Z :=
  match value ≫= parseInt with
  | Some n => if n =? 0 then 201 else n
  | None => 201
  end.

(** The [for] loop of lines 1264-1279 from position [i] on, [args] being
    the arguments from there. *)
Fixpoint parse_loop (args : list string) (options : Options) : Options :=
  match args with
  | [] => options
  | arg :: rest =>
      if String.eqb arg "--help" || String.eqb arg "-h" then
        parse_loop rest
          (mkOptions (interactive options) (curl options) (status options) true)
      else if String.eqb arg "--curl" || String.eqb arg "-c" then
        match rest with
        | value :: rest' =>
            parse_loop rest' (mkOptions false (Some value) (status options) (help options))
        | [] => mkOptions false None (status options) (help options)
        end
      else if String.eqb arg "--status" then
        match rest with
        | value :: rest' =>
            parse_loop rest'
              (mkOptions (interactive options) (curl options) (status_of (Some value))
                         (help options))
        | [] =>
            mkOptions (interactive options) (curl options) (status_of None) (help options)
        end
      else parse_loop rest options
  end.

Definition parseArguments (argv : list string) : Options :=
  parse_loop argv (mkOptions true None 201 false).

(** What [main] goes on to do. *)
Inductive Action :=
| ShowHelp
| RunInteractive
| ExitWithoutCurl                                      (* [process.exit(1)], line 1345 *)
| RunTests (curlCommand : string) (expectedStatus : Z).

Definition main (argv : list string) : Action :=
  let options := parseArguments argv in
  if help options then ShowHelp
  else if interactive options then RunInteractive
  else
    match curl options with
    | Some command =>
        if String.eqb command "" then ExitWithoutCurl
        else RunTests command (status options)
    | None => ExitWithoutCurl
    end.

Definition newline : string := String "010"%char EmptyString.

(** [input] is what is typed, line by line.  The result is the command and
    the lines not read; [None] when the input ends before the command is
    closed, and the prompt is never answered. *)
Fixpoint getMultilineInput (input : list string) (lines : list string)
  : option (string * list string) :=
  match input with
  | [] => None
  | line :: rest =>
      if String.eqb line "" && (0 <? length lines)%nat then Some (join newline lines, rest)
      else if negb (String.eqb line "") then getMultilineInput rest (lines ++ [line])
      else getMultilineInput rest lines
  end.

Inductive InteractiveAction :=
| Unanswered
| ExitWithoutCommand                                   (* [process.exit(1)], line 1242 *)
| RunTestsOn (curlCommand : string) (expectedStatus : Z).

Definition runInteractiveMode (input : list string) : InteractiveAction :=
  match getMultilineInput input [] with
  | None => Unanswered
  | Some (curlCommand, _) =>
      if String.eqb (trim curlCommand) "" then ExitWithoutCommand
      else RunTestsOn curlCommand 201
  end.

End Cli.

(** * Vocabulary of the properties *)

(** The tags of the Missing-Field, Type-Mismatch, Null-Value, Empty-Value,
    Security and Edge cases. *)
Definition rejection_types : list string :=
  [ "Negative - Missing"; "Negative - Type"; "Negative - Null"; "Negative - Empty";
    "Security - XSS"; "Security - SQL"; "Security - NoSQL"; "Security - LDAP";
    "Security - Command"; "Security - Path";
    "Edge - Long"; "Edge - Special"; "Edge - Unicode"; "Edge - Large"; "Edge - Negative" ].

Definition is_rejection_type (ty : string) : bool :=
  existsb (String.eqb ty) rejection_types.

(** The cases of the six categories, for one base request. *)
Definition rejection_cases (baseRequest : Request) : list TestCase :=
  generateMissingFieldTests baseRequest ++ generateInvalidTypeTests baseRequest
  ++ generateNullValueTests baseRequest ++ generateSecurityTests baseRequest
  ++ generateEdgeCaseTests baseRequest.

Definition scenario_payload : jsobject :=
  [("name", JStr "Widget"); ("year", JInt 2020)].

Definition scenario_request (h : gmap string string) : Request :=
  mkRequest "POST" "http://localhost:3000/items" h (JObj scenario_payload) [].

Definition json_content_type : gmap string string :=
  {[ "Content-Type" := "application/json" ]}.

(** The first Fuzz case of scenario A when no draw is below the threshold. *)
Definition fuzz_case_1 : TestCase :=
  mkTestCase "Fuzz" "Random fuzz test #1" (scenario_request ∅) 400 "Varies".

(** A network on which every request times out. *)
Definition always_timeout : nat -> Request -> NetEvent := fun _ _ => RequestTimeout.

(** The state of the loop of [runTests] before the first test case, for a
    new tester. *)
Definition fresh_run : RunState := mkRunState [] 0 0 [].

(** A network on which every request is answered with status 200. *)
Definition always_ok : nat -> Request -> NetEvent := fun _ _ => Responded 200 "{}".

(** The first Header-Variant case of scenario A with the header
    'Content-Type: application/json'. *)
Definition missing_content_type_case : TestCase :=
  mkTestCase "Negative - Header" "Missing Content-Type header"
             (scenario_request ∅) 415 "415 Unsupported Media Type".

(** The command line of scenario A, with a content-type header. *)
Definition scenario_curl : string :=
  "curl -X POST http://localhost:3000/items -H 'Content-Type: application/json' -d '{"
  +:+ dq +:+ "name" +:+ dq +:+ ": " +:+ dq +:+ "Widget" +:+ dq +:+ ", "
  +:+ dq +:+ "year" +:+ dq +:+ ": 2020}'".

(** What [parseCurl] makes of a text without a URL. *)
Definition no_target : Request := mkRequest "GET" "" ∅ JNull [].

(** The type tags of the 24 cases that do not depend on the headers, in
    generation order. *)
Definition scenario_types : list string :=
  [ "Positive"; "Negative - Missing"; "Negative - Missing";
    "Negative - Type"; "Negative - Type";
    "Negative - Null"; "Negative - Empty"; "Negative - Null";
    "Security - XSS"; "Security - SQL"; "Security - NoSQL"; "Security - LDAP";
    "Security - Command"; "Security - Path";
    "Edge - Long"; "Edge - Special"; "Edge - Unicode"; "Edge - Large"; "Edge - Negative";
    "Fuzz"; "Fuzz"; "Fuzz"; "Fuzz"; "Fuzz" ].

(** The number of test cases whose tag satisfies [p]. *)
Definition count_tagged (p : string -> bool) (tcs : list TestCase) : nat :=
  length (List.filter p (map type tcs)).

Definition header_variants (h : gmap string string) : list string :=
  if has_content_type h then ["Negative - Header"; "Negative - Header"] else [].

(** Reading a path: the node that the path resolves to, following own
    properties through plain objects. *)
Fixpoint lookup_path (o : jsobject) (path : list string) : option jsval :=
  match path with
  | [] => Some (JObj o)
  | key :: rest =>
      match obj_get o key with
      | Some v =>
          match rest with
          | [] => Some v
          | _ :: _ => match v with JObj child => lookup_path child rest | _ => None end
          end
      | None => None
      end
  end.

(** A value that is neither [undefined], nor [null], nor a plain object: a
    boolean, a number, a string or an array. *)
Definition blocks (v : jsval) : bool :=
  match v with
  | JBool _ | JNum _ | JStr _ | JArr _ => true
  | _ => false
  end.

(** Some segment of [path] other than the last resolves to such a value. *)
Definition blocked_at (o : jsobject) (path : list string) : Prop :=
  exists pre key post x,
    path = pre ++ key :: post /\ post <> []
    /\ lookup_path o (pre ++ [key]) = Some x /\ blocks x = true.

(** The paths of the nodes of a payload, as the traversal visits them. *)
Definition leaf_paths (d : jsobject) : list (list string) :=
  map snd (traverseObject d []).

(** The payload with the node at [path] deleted and nothing else changed. *)
Fixpoint delete_path (o : jsobject) (path : list string) : jsobject :=
  match path with
  | [] => o
  | key :: rest =>
      match rest with
      | [] => obj_delete o key
      | _ :: _ =>
          match obj_get o key with
          | Some (JObj child) => obj_set o key (JObj (delete_path child rest))
          | _ => o
          end
      end
  end.

(** The paths of length one, then those of length two. *)
Definition short_paths (d : jsobject) : list (list string) :=
  map (fun field => [field]) (keys d)
  ++ flat_map (fun field =>
                 match obj_read d field with
                 | JObj nested => map (fun nestedField => [field; nestedField]) (keys nested)
                 | _ => []
                 end)
              (keys d).

Definition payload (tc : TestCase) : jsval := data (request tc).

Definition nested_payload : jsobject :=
  [("name", JStr "Widget"); ("data", JObj [("year", JInt 2020)])].

Definition nested_request : Request :=
  mkRequest "POST" "http://localhost:3000/items" ∅ (JObj nested_payload) [].



(** Two paths part ways: after a common beginning they go on with two
    different keys. *)
Definition diverge (P Q : list string) : Prop :=
  exists common a b P' Q',
    a <> b /\ P = common ++ a :: P' /\ Q = common ++ b :: Q'.

(** The keys after a write along a path that starts with [key]: a key that
    is there keeps its place, a new one comes last. *)
Definition keys_after_write (o : jsobject) (key : string) : list string :=
  if existsb (String.eqb key) (keys o) then keys o else keys o ++ [key].

(** The cases of the four generators that replace one value. *)
Definition replacement_cases (baseRequest : Request) : list TestCase :=
  generateInvalidTypeTests baseRequest ++ generateNullValueTests baseRequest
  ++ generateSecurityTests baseRequest ++ generateEdgeCaseTests baseRequest.

(** The number of visited nodes whose value satisfies [p]. *)
Definition count_visits (p : jsval -> bool) (l : list Visit) : nat :=
  length (List.filter (fun v : Visit => p (fst v)) l).

Definition count_nodes (p : jsval -> bool) (d : jsobject) : nat :=
  count_visits p (traverseObject d []).

(** No request fails before it is sent. *)
Definition no_setup_error (net : nat -> Request -> NetEvent) : Prop :=
  forall k r message, net k r <> SetupError message.

Definition plain_get : string := "curl http://h.example/x".


(** A pattern without a capturing group. *)
Fixpoint groupless (r : regex) : bool :=
  match r with
  | RSeq a b | RAlt a b => groupless a && groupless b
  | RStar _ a => groupless a
  | RGroup _ _ => false
  | _ => true
  end.

(** A number of characters that every match of the pattern consumes. *)
Fixpoint min_len (r : regex) : nat :=
  match r with
  | RChar _ | RSet _ _ => 1
  | RSeq a b => min_len a + min_len b
  | RAlt a b => Nat.min (min_len a) (min_len b)
  | RGroup _ a => min_len a
  | _ => 0
  end.

(** A sequence with one capturing group, the first, which is on every
    match and consumes at least one character. *)
Fixpoint fills_group_1 (r : regex) : bool :=
  match r with
  | RGroup 1 a => groupless a && (1 <=? min_len a)%nat
  | RSeq a b => (fills_group_1 a && groupless b) || (groupless a && fills_group_1 b)
  | _ => false
  end.

(** A run that ended at line 628, before any test case was generated. *)
Definition aborted (r : Run) : Prop := summary r = None.

(** The text that makes [extractDataAggressively] fall back on the sample
    payload (line 142). *)
Definition sample_host : string := "api.restful-api.dev/objects".

Definition sample_listing : string := "curl https://api.restful-api.dev/objects".

(** One of the two spellings of the flag that gives the command. *)
Definition curl_flag (flag : string) : Prop := flag = "--curl" \/ flag = "-c".

(** What the loop of [runTests] writes into a result, in terms of the test
    case it stores there. *)
Definition recorded (v : Verdict) : Prop :=
  testName v = type (testCase v) +:+ " - " +:+ description (testCase v)
  /\ expected v = expectedStatus (testCase v)
  /\ actual v = responseCode v
  /\ passed v = (if responseCode v =? 0 then false
                 else isExpectedResult (responseCode v) (expected v) (type (testCase v))).


(** Data all of whose numbers are finite doubles: the data that
    [JSON.stringify] and [JSON.parse] give back as it was. *)
Fixpoint finite_json (v : jsval) : bool :=
  match v with
  | JNum n => negb (rounds_to_infinity n)
  | JArr items => forallb finite_json items
  | JObj fields => forallb (fun kv => finite_json (snd kv)) fields
  | _ => true
  end.

(** The names of the members of [Object.prototype], which a plain object
    inherits. *)
Definition prototype_names : list string :=
  [ "constructor"; "__proto__"; "hasOwnProperty"; "isPrototypeOf";
    "propertyIsEnumerable"; "toLocaleString"; "toString"; "valueOf";
    "__defineGetter__"; "__defineSetter__"; "__lookupGetter__"; "__lookupSetter__" ].

(** A key that a plain object does not inherit: reading it gives an own
    property or [undefined], and writing it makes an own property. *)
Definition ordinary_key (key : string) : bool :=
  negb (existsb (String.eqb key) prototype_names).

Definition ordinary_path (path : list string) : bool := forallb ordinary_key path.

(** A key written with digits only.  The canonical array indices are among
    these keys; the engine lists them before the other keys, whenever they
    were added. *)
Definition digits_only (key : string) : bool :=
  negb (String.eqb key "") && forallb is_digit (list_ascii_of_string key).

(** The value that a case with the tag [ty] puts in the place of a node
    that holds [old]; [None] when no case with that tag is made for such a
    node. *)
Definition replacement_of (ty : string) (old : jsval) : option jsval :=
  let for_string (x : jsval) := if typeof_string old then Some x else None in
  let for_number (x : jsval) := if typeof_number old then Some x else None in
  if String.eqb ty "Negative - Type" then
    if typeof_string old then Some (JInt 12345)
    else for_number (JStr "not_a_number")
  else if String.eqb ty "Negative - Null" then Some JNull
  else if String.eqb ty "Negative - Empty" then for_string (JStr "")
  else if String.eqb ty "Edge - Long" then for_string (JStr (repeat_string "a" 1000))
  else if String.eqb ty "Edge - Special" then for_string (JStr special_characters)
  else if String.eqb ty "Edge - Unicode" then for_string (JStr unicode_sample)
  else if String.eqb ty "Edge - Large" then for_number (JInt MAX_SAFE_INTEGER)
  else if String.eqb ty "Edge - Negative" then for_number (JInt (-999999))
  else
    match find (fun attack => String.eqb ty ("Security - " +:+ fst attack)) attacks with
    | Some attack => for_string (JStr (snd attack))
    | None => None
    end.





(** * Properties *)

(** ** The embedding at work *)

Example parse_scenario_curl :
  parseCurl scenario_curl
  = Returns (mkRequest "POST" "http://localhost:3000/items" json_content_type
                       (JObj scenario_payload) []).
Proof. vm_compute. reflexivity. Qed.

Example traversal_order :
  leaf_paths nested_payload = [["name"]; ["data"]; ["data"; "year"]].
Proof. reflexivity. Qed.

(** A positive case answered with 200 passes when 201 was expected; 204 does
    not. *)
Example positive_success_set :
  isExpectedResult 200 201 "Positive" = true
  /\ isExpectedResult 204 201 "Positive" = false.
Proof. split; reflexivity. Qed.

(** Scenario A against a service that answers every request with 200: the
    positive case passes and the 25 others fail. *)
Example run_scenario_all_ok :
  summary <$> runTests (fun _ => 1%Q) always_ok [] scenario_curl 201
  = Returns (Some (1%nat, 25%nat)).
Proof. vm_compute. reflexivity. Qed.

(** ** Induction on values *)

Lemma jsval_ind (P : jsval -> Prop)
    (Hundef : P JUndefined) (Hnull : P JNull)
    (Hbool : forall b, P (JBool b)) (Hnum : forall n, P (JNum n))
    (Hstr : forall s, P (JStr s))
    (Harr : forall items, Forall P items -> P (JArr items))
    (Hobj : forall fields, Forall (fun kv => P (snd kv)) fields -> P (JObj fields)) :
  forall v, P v.
Proof.
  fix IH 1. intros [ | | b | n | s | items | fields ].
  - exact Hundef.
  - exact Hnull.
  - exact (Hbool b).
  - exact (Hnum n).
  - exact (Hstr s).
  - apply Harr. induction items as [ | x items IHitems ]; constructor.
    + exact (IH x).
    + exact IHitems.
  - apply Hobj. induction fields as [ | kv fields IHfields ]; constructor.
    + exact (IH (snd kv)).
    + exact IHfields.
Qed.

(** Cloning well-formed JSON data gives the same data back. *)
Lemma clone_inner_wf (v : jsval) : wf_json v = true -> clone_inner v = v.
Proof.
  induction v as [ | | b | n | s | items IH | fields IH ] using jsval_ind;
    simpl; intros Hwf; try reflexivity.
  - f_equal. induction IH as [ | x items Hx _ IHitems ]; simpl in *; [ reflexivity | ].
    apply andb_prop in Hwf as [Hwfx Hwfi].
    rewrite IHitems by assumption. f_equal.
    destruct x; try discriminate; exact (Hx Hwfx).
  - f_equal. apply andb_prop in Hwf as [_ Hwf].
    induction IH as [ | [k x] fields Hx _ IHfields ]; simpl in *; [ reflexivity | ].
    apply andb_prop in Hwf as [Hwfx Hwff].
    rewrite IHfields by assumption.
    destruct x; try discriminate; do 2 f_equal; exact (Hx Hwfx).
Qed.

Lemma clone_object_wf (o : jsobject) : wf_object o = true -> clone_object o = o.
Proof.
  intros Hwf. unfold clone_object. rewrite (clone_inner_wf (JObj o) Hwf). reflexivity.
Qed.

(** ** The type tags the generators produce *)

Ltac by_visits :=
  apply Forall_flat_map, Forall_forall; intros [value path] _; cbv beta iota;
  repeat match goal with |- context [if ?b then _ else _] => destruct b end;
  repeat match goal with |- Forall _ (_ ++ _) => apply Forall_app; split end;
  repeat constructor.

Lemma missing_types (b : Request) :
  Forall (fun tc => is_rejection_type (type tc) = true) (generateMissingFieldTests b).
Proof.
  unfold generateMissingFieldTests. destruct (payload_object b) as [d | ]; [ | constructor ].
  apply Forall_app; split.
  - apply Forall_map, Forall_forall. intros; reflexivity.
  - apply Forall_flat_map, Forall_forall. intros field _.
    destruct (obj_read d field); try constructor.
    apply Forall_map, Forall_forall. intros; reflexivity.
Qed.

Lemma invalid_type_types (b : Request) :
  Forall (fun tc => is_rejection_type (type tc) = true) (generateInvalidTypeTests b).
Proof.
  unfold generateInvalidTypeTests. destruct (payload_object b) as [d | ]; [ | constructor ].
  by_visits.
Qed.

Lemma null_value_types (b : Request) :
  Forall (fun tc => is_rejection_type (type tc) = true) (generateNullValueTests b).
Proof.
  unfold generateNullValueTests. destruct (payload_object b) as [d | ]; [ | constructor ].
  by_visits.
Qed.

Lemma security_types (b : Request) :
  Forall (fun tc => is_rejection_type (type tc) = true) (generateSecurityTests b).
Proof.
  unfold generateSecurityTests. destruct (payload_object b) as [d | ]; [ | constructor ].
  by_visits.
Qed.

Lemma edge_types (b : Request) :
  Forall (fun tc => is_rejection_type (type tc) = true) (generateEdgeCaseTests b).
Proof.
  unfold generateEdgeCaseTests. destruct (payload_object b) as [d | ]; [ | constructor ].
  by_visits.
Qed.

Lemma rejection_cases_types (b : Request) :
  Forall (fun tc => is_rejection_type (type tc) = true) (rejection_cases b).
Proof.
  unfold rejection_cases.
  repeat match goal with |- Forall _ (_ ++ _) => apply Forall_app; split end;
    auto using missing_types, invalid_type_types, null_value_types, security_types,
               edge_types.
Qed.

(** On each of these tags the classifier takes its second branch. *)
Lemma isExpectedResult_rejection (ty : string) (s e : Z) :
  is_rejection_type ty = true -> isExpectedResult s e ty = (400 <=? s).
Proof.
  unfold is_rejection_type, rejection_types. simpl existsb. intros H.
  repeat (apply orb_prop in H as [H | H];
          [ apply String.eqb_eq in H; subst ty; reflexivity | ]).
  discriminate.
Qed.

Lemma fuzz_rounds_types rand b d i count n :
  Forall (fun tc => type tc = "Fuzz") (fst (fuzz_rounds rand b d i count n)).
Proof.
  revert i n. induction count as [ | count IH ]; intros i n; simpl; [ constructor | ].
  unfold fuzz_round.
  destruct (fold_left _ _ _) as [modifiedData n1].
  specialize (IH (S i) n1). destruct (fuzz_rounds rand b d (S i) count n1) as [tcs n2].
  simpl. constructor; [ reflexivity | exact IH ].
Qed.

Lemma fuzz_types rand n b :
  Forall (fun tc => type tc = "Fuzz") (fst (generateFuzzTests rand n b)).
Proof.
  unfold generateFuzzTests. destruct (payload_object b); [ | constructor ].
  apply fuzz_rounds_types.
Qed.

Lemma header_types (b : Request) :
  Forall (fun tc => type tc = "Negative - Header") (generateHeaderTests b).
Proof.
  unfold generateHeaderTests. destruct (has_content_type _); repeat constructor.
Qed.

(** ** The classifier, category by category *)

(** C5.  For every test case of the Missing-Field, Type-Mismatch,
    Null-Value, Empty-Value, Security and Edge generators and every observed
    status other than 0, the verdict is a pass exactly when the status is at
    least 400, whatever the expected status recorded in the test case. *)
Theorem rejection_cases_pass_iff_ge_400 (baseRequest : Request) (tc : TestCase)
    (response : Outcome) :
  In tc (rejection_cases baseRequest) ->
  status response <> 0 ->
  judged response tc = true <-> 400 <= status response.
Proof.
  intros Hin Hs.
  pose proof (rejection_cases_types baseRequest) as Hall.
  rewrite Forall_forall in Hall. apply list_elem_of_In, Hall in Hin.
  unfold judged. apply Z.eqb_neq in Hs. rewrite Hs.
  rewrite (isExpectedResult_rejection _ _ _ Hin). apply Z.leb_le.
Qed.

Lemma rejection_cases_pass_iff_ge_400_witness :
  judged (mkOutcome 422 None (Some ""))
         (negative_case "Negative - Missing" "Missing name field" (scenario_request ∅)
                        [("year", JInt 2020)]) = true
  <-> 400 <= 422.
Proof.
  apply (rejection_cases_pass_iff_ge_400 (scenario_request ∅)).
  - left. reflexivity.
  - discriminate.
Defined.

(** C1, as the code has it.  A Header-Variant case carries the tag
    'Negative - Header', and the classifier asks of every tag that contains
    'Negative' only that the status be at least 400: for every observed
    status other than 0 the verdict is a pass exactly when the status is at
    least 400.  The expected status 415 recorded in the case is not
    compared. *)
Theorem header_cases_pass_iff_ge_400 (baseRequest : Request) (tc : TestCase)
    (response : Outcome) :
  In tc (generateHeaderTests baseRequest) ->
  status response <> 0 ->
  judged response tc = true <-> 400 <= status response.
Proof.
  intros Hin Hs.
  pose proof (header_types baseRequest) as Hall.
  rewrite Forall_forall in Hall. apply list_elem_of_In, Hall in Hin.
  unfold judged. apply Z.eqb_neq in Hs. rewrite Hs, Hin. apply Z.leb_le.
Qed.

Lemma header_cases_pass_iff_ge_400_witness :
  judged (mkOutcome 415 None (Some "")) missing_content_type_case = true <-> 400 <= 415.
Proof.
  apply (header_cases_pass_iff_ge_400 (scenario_request json_content_type)).
  - left. reflexivity.
  - discriminate.
Defined.

(** C1 fails as stated: the Header-Variant case 'Missing Content-Type
    header' of scenario A, answered with status 400, is marked passed,
    although 400 is not 415. *)
Lemma header_case_passes_on_400 :
  In missing_content_type_case (generateHeaderTests (scenario_request json_content_type))
  /\ expectedStatus missing_content_type_case = 415
  /\ judged (mkOutcome 400 None (Some "")) missing_content_type_case = true.
Proof.
  split; [ left; reflexivity | split; reflexivity ].
Qed.

(** C2, as the code has it.  The classifier lists 'Fuzz' with the negative
    tags: for every Fuzz case and every observed status other than 0 the
    verdict is a pass exactly when the status is at least 400.  The status
    is not compared with the expected status of the case. *)
Theorem fuzz_cases_pass_iff_ge_400 (rand : nat -> Q) (n : nat) (baseRequest : Request)
    (tc : TestCase) (response : Outcome) :
  In tc (fst (generateFuzzTests rand n baseRequest)) ->
  status response <> 0 ->
  judged response tc = true <-> 400 <= status response.
Proof.
  intros Hin Hs.
  pose proof (fuzz_types rand n baseRequest) as Hall.
  rewrite Forall_forall in Hall. apply list_elem_of_In, Hall in Hin.
  unfold judged. apply Z.eqb_neq in Hs. rewrite Hs, Hin. apply Z.leb_le.
Qed.

Lemma fuzz_cases_pass_iff_ge_400_witness :
  judged (mkOutcome 500 None (Some "")) fuzz_case_1 = true <-> 400 <= 500.
Proof.
  apply (fuzz_cases_pass_iff_ge_400 (fun _ => 1%Q) 0 (scenario_request ∅)).
  - left. reflexivity.
  - discriminate.
Defined.

(** C2 fails as stated: the first Fuzz case of scenario A, answered with
    status 200, is judged failed, and the run counts it as a failure. *)
Lemma fuzz_case_fails_on_200 :
  In fuzz_case_1 (fst (generateFuzzTests (fun _ => 1%Q) 0 (scenario_request ∅)))
  /\ judged (mkOutcome 200 None (Some "{}")) fuzz_case_1 = false
  /\ failCount (run_one always_ok fresh_run fuzz_case_1) = 1%nat
  /\ passCount (run_one always_ok fresh_run fuzz_case_1) = 0%nat.
Proof.
  split; [ left; reflexivity | repeat split; reflexivity ].
Qed.

(** ** Scenario A: what is generated *)

Lemma fuzz_rounds_tags rand b d i count n :
  map type (fst (fuzz_rounds rand b d i count n)) = repeat "Fuzz" count.
Proof.
  revert i n. induction count as [ | count IH ]; intros i n; simpl; [ reflexivity | ].
  unfold fuzz_round.
  destruct (fold_left _ _ _) as [modifiedData n1].
  specialize (IH (S i) n1). destruct (fuzz_rounds rand b d (S i) count n1) as [tcs n2].
  simpl in *. congruence.
Qed.

Lemma has_content_type_size (h : gmap string string) :
  has_content_type h = true -> (0 <? size h)%nat = true.
Proof.
  unfold has_content_type. intros H. apply Nat.ltb_lt.
  destruct (h !! "Content-Type") as [v | ] eqn:Hv; [ | discriminate ].
  destruct (decide (size h = 0%nat)) as [Hz | Hz]; [ | lia ].
  apply map_size_empty_iff in Hz. subst h. rewrite lookup_empty in Hv. discriminate.
Qed.

Lemma scenario_tags rand m u h p :
  map type (generateTestCases rand (mkRequest m u h (JObj scenario_payload) p) 201)
  = scenario_types ++ header_variants h.
Proof.
  unfold generateTestCases.
  change (clone_request (mkRequest m u h (JObj scenario_payload) p))
    with (mkRequest m u h (JObj scenario_payload) (clone_object p)).
  set (b := mkRequest m u h (JObj scenario_payload) (clone_object p)).
  change (truthy (data b) && is_plain_object (data b)) with true. cbv iota.
  rewrite !map_app.
  change (generateFuzzTests rand 0 b) with (fuzz_rounds rand b scenario_payload 0 5 0).
  rewrite fuzz_rounds_tags.
  change (headers b) with h.
  assert (Hh : map type (if (0 <? size h)%nat then generateHeaderTests b else [])
               = header_variants h).
  { unfold header_variants, generateHeaderTests. change (headers b) with h.
    destruct (has_content_type h) eqn:Hct.
    - rewrite (has_content_type_size h Hct). reflexivity.
    - destruct (0 <? size h)%nat; reflexivity. }
  rewrite Hh. reflexivity.
Qed.

(** C3.  For the payload [{"name": "Widget", "year": 2020}] and expected
    status 201, whatever the draws of the fuzzer, the method, the URL and
    the headers: generation yields 1 Positive, 2 Missing-Field, 2
    Type-Mismatch, 2 Null-Value, 1 Empty-Value, 6 Security, 5 Edge and 5
    Fuzz cases, 24 in all, when the headers have no 'Content-Type' entry,
    and exactly 2 Header-Variant cases more, 26 in all, when they have one
    (with a value that is not empty). *)
Theorem scenario_A_counts (rand : nat -> Q) (m u : string) (h : gmap string string)
    (p : jsobject) :
  let tcs := generateTestCases rand (mkRequest m u h (JObj scenario_payload) p) 201 in
  let extra := if has_content_type h then 2%nat else 0%nat in
  count_tagged (String.eqb "Positive") tcs = 1%nat
  /\ count_tagged (String.eqb "Negative - Missing") tcs = 2%nat
  /\ count_tagged (String.eqb "Negative - Type") tcs = 2%nat
  /\ count_tagged (String.eqb "Negative - Null") tcs = 2%nat
  /\ count_tagged (String.eqb "Negative - Empty") tcs = 1%nat
  /\ count_tagged (String.prefix "Security - ") tcs = 6%nat
  /\ count_tagged (String.prefix "Edge - ") tcs = 5%nat
  /\ count_tagged (String.eqb "Fuzz") tcs = 5%nat
  /\ count_tagged (String.eqb "Negative - Header") tcs = extra
  /\ length tcs = (24 + extra)%nat.
Proof.
  intros tcs extra. subst tcs extra. unfold count_tagged.
  rewrite <- (length_map type (generateTestCases _ _ _)), scenario_tags.
  unfold header_variants. destruct (has_content_type h); repeat split; reflexivity.
Qed.

(** C3 fails as stated: with the header 'content-type: application/json' a
    content-type header is present, yet generation yields the 24 cases and
    no Header-Variant case. *)
Lemma lower_case_content_type_adds_no_case :
  ({[ "content-type" := "application/json" ]} : gmap string string) !! "content-type"
  = Some "application/json"
  /\ length (generateTestCases (fun _ => 1%Q)
               (scenario_request {[ "content-type" := "application/json" ]}) 201)
     = 24%nat
  /\ count_tagged (String.eqb "Negative - Header")
       (generateTestCases (fun _ => 1%Q)
          (scenario_request {[ "content-type" := "application/json" ]}) 201) = 0%nat.
Proof.
  repeat split; vm_compute; reflexivity.
Qed.

(** ** Header variants need the exact key *)






(** ** Transport failures and the counters of a run *)

Section Wire.

Variable net : nat -> Request -> NetEvent.

(** Every test case is put on the wire at most once. *)
Lemma run_one_wire (st : RunState) (tc : TestCase) :
  wire (run_one net st tc) = wire st
  \/ wire (run_one net st tc) = wire st ++ [request tc].
Proof.
  unfold run_one, executeRequest.
  destruct (net (length (wire st)) (request tc)); simpl; auto.
Qed.

Lemma run_wire_bound (tcs : list TestCase) (st : RunState) :
  (length (wire (fold_left (run_one net) tcs st)) <= length (wire st) + length tcs)%nat.
Proof.
  revert st. induction tcs as [ | tc tcs IH ]; intros st; simpl; [ lia | ].
  specialize (IH (run_one net st tc)).
  destruct (run_one_wire st tc) as [H | H]; rewrite H in IH;
    rewrite ?length_app in IH; simpl in IH; lia.
Qed.

(** Each test case adds one verdict and one count, a pass or a failure. *)
Lemma run_one_counts (st : RunState) (tc : TestCase) :
  length (results (run_one net st tc)) = S (length (results st))
  /\ (passCount (run_one net st tc) + failCount (run_one net st tc)
      = S (passCount st + failCount st))%nat.
Proof.
  unfold run_one. destruct (executeRequest net (wire st) (request tc)) as [response w].
  simpl. rewrite length_app. simpl. destruct (judged response tc); split; lia.
Qed.

Lemma run_counts (tcs : list TestCase) (st : RunState) :
  length (results (fold_left (run_one net) tcs st)) = (length (results st) + length tcs)%nat
  /\ (passCount (fold_left (run_one net) tcs st) + failCount (fold_left (run_one net) tcs st)
      = passCount st + failCount st + length tcs)%nat.
Proof.
  revert st. induction tcs as [ | tc tcs IH ]; intros st; simpl; [ split; lia | ].
  destruct (IH (run_one net st tc)) as [Hr Hc].
  destruct (run_one_counts st tc) as [Hr1 Hc1]. split; lia.
Qed.

(** C7.  When the request of a test case meets a connection error or a
    timeout, the executor's outcome has status 0 and carries the error
    text; the request has been put on the wire once and is not sent again;
    and the run records a failed verdict and counts a failure, whatever the
    type tag of the test case. *)
Theorem transport_failure_fails (st : RunState) (tc : TestCase) (text : string) :
  net (length (wire st)) (request tc) = RequestError text
  \/ (net (length (wire st)) (request tc) = RequestTimeout /\ text = "Request timeout") ->
  executeRequest net (wire st) (request tc)
    = (mkOutcome 0 (Some text) None, wire st ++ [request tc])
  /\ wire (run_one net st tc) = wire st ++ [request tc]
  /\ failCount (run_one net st tc) = S (failCount st)
  /\ passCount (run_one net st tc) = passCount st
  /\ exists v, results (run_one net st tc) = results st ++ [v]
               /\ passed v = false /\ responseCode v = 0
               /\ verdict_error v = Some text /\ testCase v = tc.
Proof.
  intros H.
  assert (Hex : executeRequest net (wire st) (request tc)
                = (mkOutcome 0 (Some text) None, wire st ++ [request tc])).
  { unfold executeRequest. destruct H as [-> | [-> ->]]; reflexivity. }
  split; [ exact Hex | ].
  unfold run_one. rewrite Hex. simpl. repeat split.
  eexists. repeat split.
Qed.

End Wire.

Lemma transport_failure_fails_witness :
  executeRequest always_timeout (wire fresh_run) (request fuzz_case_1)
    = (mkOutcome 0 (Some "Request timeout") None, wire fresh_run ++ [request fuzz_case_1])
  /\ wire (run_one always_timeout fresh_run fuzz_case_1)
     = wire fresh_run ++ [request fuzz_case_1]
  /\ failCount (run_one always_timeout fresh_run fuzz_case_1) = S (failCount fresh_run)
  /\ passCount (run_one always_timeout fresh_run fuzz_case_1) = passCount fresh_run
  /\ exists v, results (run_one always_timeout fresh_run fuzz_case_1)
               = results fresh_run ++ [v]
               /\ passed v = false /\ responseCode v = 0
               /\ verdict_error v = Some "Request timeout" /\ testCase v = fuzz_case_1.
Proof.
  apply (transport_failure_fails always_timeout fresh_run fuzz_case_1 "Request timeout").
  right. split; reflexivity.
Defined.

(** ** Path-set *)

Lemma obj_get_set_eq (o : jsobject) (k : string) (v : jsval) :
  obj_get (obj_set o k v) k = Some v.
Proof.
  induction o as [ | [k' v'] o IH ]; simpl.
  - rewrite String.eqb_refl. reflexivity.
  - destruct (String.eqb k' k) eqn:E; simpl; rewrite E; [ reflexivity | exact IH ].
Qed.

Lemma obj_set_same (o : jsobject) (k : string) (v : jsval) :
  obj_get o k = Some v -> obj_set o k v = o.
Proof.
  induction o as [ | [k' v'] o IH ]; simpl; [ discriminate | ].
  destruct (String.eqb k' k); intros H.
  - congruence.
  - rewrite (IH H). reflexivity.
Qed.

Lemma obj_read_get (o : jsobject) (k : string) (v : jsval) :
  obj_read o k = v -> v <> JUndefined -> obj_get o k = Some v.
Proof.
  unfold obj_read. destruct (obj_get o k); intros; congruence.
Qed.

(** A blocking value on the way: nothing is written, one line is logged. *)
Lemma setNestedLoop_blocked (full : list string) (pre : list string) :
  forall (o : jsobject) (key : string) (post : list string) (value x : jsval),
    post <> [] ->
    lookup_path o (pre ++ [key]) = Some x -> blocks x = true ->
    setNestedLoop full o (pre ++ key :: post) value = (o, [skip_intermediate full]).
Proof.
  induction pre as [ | p pre IH ]; intros o key post value x Hpost Hx Hb.
  - simpl in *. destruct post as [ | k2 post ]; [ congruence | ].
    unfold obj_read. destruct (obj_get o key) as [v | ]; [ | discriminate ].
    injection Hx as ->. destruct x; try discriminate; reflexivity.
  - change ((p :: pre) ++ key :: post) with (p :: (pre ++ key :: post)).
    change ((p :: pre) ++ [key]) with (p :: (pre ++ [key])) in Hx.
    simpl in Hx |- *.
    destruct (obj_get o p) as [v | ] eqn:Hp; [ | discriminate ].
    destruct (pre ++ [key]) as [ | k1 r1 ] eqn:E1; [ destruct pre; discriminate | ].
    destruct v; try discriminate. rewrite <- E1 in Hx.
    destruct (pre ++ key :: post) as [ | k2 r2 ] eqn:E2; [ destruct pre; discriminate | ].
    unfold obj_read. rewrite Hp. rewrite <- E2.
    rewrite (IH fields key post value x Hpost Hx Hb).
    rewrite (obj_set_same _ _ _ Hp). reflexivity.
Qed.

Lemma lookup_path_empty (path : list string) :
  path <> [] -> lookup_path [] path = None.
Proof. destruct path; [ congruence | reflexivity ]. Qed.

Lemma not_blocked_empty (path : list string) : ~ blocked_at [] path.
Proof.
  intros (pre & key & post & x & _ & _ & Hx & _).
  rewrite lookup_path_empty in Hx; [ discriminate | destruct pre; discriminate ].
Qed.

Lemma not_blocked_child (o child : jsobject) (key : string) (rest : list string) :
  obj_get o key = Some (JObj child) ->
  ~ blocked_at o (key :: rest) -> ~ blocked_at child rest.
Proof.
  intros Hget Hnb (pre & k & post & x & -> & Hpost & Hx & Hb).
  apply Hnb. exists (key :: pre), k, post, x. repeat split; auto.
  change ((key :: pre) ++ [k]) with (key :: (pre ++ [k])). simpl. rewrite Hget.
  destruct (pre ++ [k]) eqn:E; [ destruct pre; discriminate | ].
  exact Hx.
Qed.

(** No blocking value on the way: the value is written and can be read
    back along the path; nothing is logged. *)
Lemma setNestedLoop_written (full : list string) (path : list string) :
  forall (o : jsobject) (value : jsval),
    path <> [] -> ~ blocked_at o path ->
    lookup_path (fst (setNestedLoop full o path value)) path = Some value
    /\ snd (setNestedLoop full o path value) = [].
Proof.
  induction path as [ | key rest IH ]; intros o value Hne Hnb; [ congruence | ].
  destruct rest as [ | k2 rest ].
  - simpl. rewrite obj_get_set_eq. auto.
  - assert (Hrest : k2 :: rest <> []) by discriminate.
    assert (Hfresh : forall child,
               (obj_get o key = Some (JObj child) \/ child = []) ->
               lookup_path (fst (let '(c, lg) := setNestedLoop full child (k2 :: rest) value in
                                 (obj_set o key (JObj c), lg))) (key :: k2 :: rest)
               = Some value
               /\ snd (let '(c, lg) := setNestedLoop full child (k2 :: rest) value in
                       (obj_set o key (JObj c), lg)) = []).
    { intros child Hchild.
      assert (Hnb' : ~ blocked_at child (k2 :: rest)).
      { destruct Hchild as [Hget | ->];
          [ exact (not_blocked_child _ _ _ _ Hget Hnb) | apply not_blocked_empty ]. }
      destruct (IH child value Hrest Hnb') as [Hread Hlog].
      destruct (setNestedLoop full child (k2 :: rest) value) as [c lg].
      simpl in Hread, Hlog. subst lg. split; [ | reflexivity ].
      change (lookup_path (obj_set o key (JObj c)) (key :: k2 :: rest) = Some value).
      simpl. rewrite obj_get_set_eq. exact Hread. }
    change (setNestedLoop full o (key :: k2 :: rest) value)
      with (match obj_read o key with
            | JUndefined | JNull =>
                let '(c, lg) := setNestedLoop full [] (k2 :: rest) value in
                (obj_set o key (JObj c), lg)
            | JObj child0 =>
                let '(c, lg) := setNestedLoop full child0 (k2 :: rest) value in
                (obj_set o key (JObj c), lg)
            | _ => (o, [skip_intermediate full])
            end).
    destruct (obj_read o key) as [ | | b | n | s | items | child ] eqn:Hread;
      try (apply Hfresh; right; reflexivity);
      try (apply Hfresh; left; apply obj_read_get; [ exact Hread | discriminate ]);
      (exfalso; apply Hnb; exists [], key, (k2 :: rest), (obj_read o key);
       rewrite Hread; repeat split;
       [ discriminate
       | simpl; rewrite (obj_read_get _ _ _ Hread) by discriminate; reflexivity ]).
Qed.

(** C9, as the code has it.  Path-set on a plain object, along a path that
    is not empty and has no name of a member of [Object.prototype] among
    its segments (with such a name a read goes to the prototype, which the
    embedding does not follow).
    When a segment of the path before the last reads as a boolean, a
    number, a string or an array, nothing is written: the object is left as
    it was and one diagnostic is logged.  Otherwise the value is written and
    nothing is logged; in particular a segment that reads as [undefined]
    (an absent property is one) or as [null] does not stop the write: an
    empty object is put in its place, and the path then reads back the
    value. *)
Theorem setNestedValue_intermediate (obj : jsobject) (path : list string) (value : jsval) :
  path <> [] ->
  ordinary_path path = true ->
  (blocked_at obj path ->
     setNestedValue obj path value = (obj, [skip_intermediate path]))
  /\ (~ blocked_at obj path ->
        lookup_path (fst (setNestedValue obj path value)) path = Some value
        /\ snd (setNestedValue obj path value) = []).
Proof.
  intros Hne _. unfold setNestedValue. split.
  - intros (pre & key & post & x & -> & Hpost & Hx & Hb).
    exact (setNestedLoop_blocked _ pre obj key post value x Hpost Hx Hb).
  - intros Hnb. exact (setNestedLoop_written _ path obj value Hne Hnb).
Qed.

Lemma setNestedValue_intermediate_witness :
  setNestedValue [("a", JInt 5)] ["a"; "b"] (JInt 1)
  = ([("a", JInt 5)], [skip_intermediate ["a"; "b"]])
  /\ lookup_path (fst (setNestedValue [("a", JNull)] ["a"; "b"] (JInt 1))) ["a"; "b"]
     = Some (JInt 1).
Proof.
  split.
  - apply (setNestedValue_intermediate [("a", JInt 5)] ["a"; "b"] (JInt 1)).
    + discriminate.
    + reflexivity.
    + exists [], "a", ["b"], (JInt 5). repeat split; discriminate.
  - apply (setNestedValue_intermediate [("a", JNull)] ["a"; "b"] (JInt 1)).
    + discriminate.
    + reflexivity.
    + intros (pre & key & post & x & Hpath & Hpost & Hx & Hb).
      destruct pre as [ | p1 [ | p2 pre ] ]; simpl in Hpath.
      * injection Hpath as <- <-. simpl in Hx. injection Hx as <-. discriminate.
      * injection Hpath as <- <- <-. congruence.
      * destruct pre; discriminate.
Defined.

(** C9 fails as stated: in [{a: null}] the segment [a] of the path [a.b]
    does not resolve to a mapping, yet the call writes: the object becomes
    [{a: {b: 1}}] and nothing is logged. *)
Lemma setNestedValue_writes_through_null :
  lookup_path [("a", JNull)] ["a"] = Some JNull
  /\ setNestedValue [("a", JNull)] ["a"; "b"] (JInt 1)
     = ([("a", JObj [("b", JInt 1)])], [])
  /\ fst (setNestedValue [("a", JNull)] ["a"; "b"] (JInt 1)) <> [("a", JNull)].
Proof.
  repeat split. discriminate.
Qed.

(** ** Missing-Field cases *)

Lemma nodupb_NoDup (l : list string) : nodupb l = true -> NoDup l.
Proof.
  induction l as [ | x l IH ]; simpl; intros H; constructor.
  - apply andb_prop in H as [H _]. intros Hin.
    apply negb_true_iff in H. apply not_true_iff_false in H. apply H.
    apply existsb_exists. exists x. split; [ apply list_elem_of_In, Hin | ].
    apply String.eqb_refl.
  - apply andb_prop in H as [_ H]. auto.
Qed.

Lemma wf_object_keys (d : jsobject) : wf_object d = true -> NoDup (keys d).
Proof.
  unfold wf_object. simpl. intros H. apply andb_prop in H as [H _].
  apply nodupb_NoDup, H.
Qed.

Lemma obj_get_elem (o : jsobject) (k : string) (v : jsval) :
  obj_get o k = Some v -> (k, v) ∈ o.
Proof.
  induction o as [ | [k' v'] o IH ]; simpl; [ discriminate | ].
  destruct (String.eqb k' k) eqn:E.
  - apply String.eqb_eq in E. intros [= ->]. subst. left.
  - intros H. right. auto.
Qed.

Lemma obj_get_key (o : jsobject) (k : string) (v : jsval) :
  obj_get o k = Some v -> k ∈ keys o.
Proof.
  intros H. apply obj_get_elem in H. unfold keys.
  apply list_elem_of_In, in_map_iff. exists (k, v). split; [ reflexivity | ].
  apply list_elem_of_In, H.
Qed.

Lemma obj_get_NoDup (o : jsobject) (k : string) (v : jsval) :
  NoDup (keys o) -> (k, v) ∈ o -> obj_get o k = Some v.
Proof.
  induction o as [ | [k' v'] o IH ]; simpl; intros Hnd Hin.
  - inversion Hin.
  - apply NoDup_cons in Hnd as [Hk' Hnd].
    apply elem_of_cons in Hin as [[= -> ->] | Hin].
    + rewrite String.eqb_refl. reflexivity.
    + destruct (String.eqb k' k) eqn:E; [ | auto ].
      apply String.eqb_eq in E. subst k'. exfalso. apply Hk'.
      unfold keys. apply list_elem_of_In, in_map_iff. exists (k, v).
      split; [ reflexivity | apply list_elem_of_In, Hin ].
Qed.


Lemma obj_get_set_ne (o : jsobject) (k k' : string) (v : jsval) :
  k <> k' -> obj_get (obj_set o k v) k' = obj_get o k'.
Proof.
  intros Hne. induction o as [ | [k0 v0] o IH ]; simpl.
  - apply String.eqb_neq in Hne. rewrite Hne. reflexivity.
  - destruct (String.eqb k0 k) eqn:E; simpl.
    + apply String.eqb_eq in E. subst k0.
      apply String.eqb_neq in Hne. rewrite Hne. reflexivity.
    + rewrite IH. reflexivity.
Qed.






Lemma map_fmap {A B} (f : A -> B) (l : list A) : map f l = f <$> l.
Proof. induction l as [ | x l IH ]; simpl; [ reflexivity | rewrite IH; reflexivity ]. Qed.


(** The generator's payloads are the deletions at the short paths, in the
    order of [short_paths]. *)
Lemma missing_payloads (b : Request) (d : jsobject) :
  payload_object b = Some d -> wf_object d = true ->
  map payload (generateMissingFieldTests b)
  = map (fun P => JObj (delete_path d P)) (short_paths d).
Proof.
  intros Hd Hwf. unfold generateMissingFieldTests, short_paths.
  rewrite Hd, (clone_object_wf d Hwf), !map_app, !map_map. f_equal.
  generalize (keys d) as fields. induction fields as [ | field fields IH ];
    simpl; [ reflexivity | ].
  rewrite !map_app, IH. f_equal.
  destruct (obj_read d field) eqn:Hread; try reflexivity.
  rewrite !map_map. apply map_ext. intros nestedField.
  unfold payload, delete_nested. simpl. rewrite Hread.
  rewrite (obj_read_get _ _ _ Hread) by discriminate. reflexivity.
Qed.

(** Every Missing-Field case is the deletion at one of the short paths. *)
Lemma missing_cases_are_short_deletions (b : Request) (d : jsobject) (tc : TestCase) :
  payload_object b = Some d -> wf_object d = true ->
  In tc (generateMissingFieldTests b) ->
  exists Q, Q ∈ short_paths d /\ payload tc = JObj (delete_path d Q).
Proof.
  intros Hd Hwf Hin. apply (in_map payload) in Hin.
  rewrite (missing_payloads b d Hd Hwf) in Hin.
  apply in_map_iff in Hin as (Q & HQ & Hin).
  exists Q. split; [ apply list_elem_of_In, Hin | symmetry; exact HQ ].
Qed.












(** ** The extractor and the run *)

(** A [try] block whose [catch] clause cannot throw cannot throw. *)
Lemma try_catch_returns {A} (body : Completion A) (handler : string -> Completion A) :
  (forall name, exists a, handler name = Returns a) ->
  exists a, try_catch body handler = Returns a.
Proof.
  intros Hhandler. destruct body as [a | name].
  - exists a. reflexivity.
  - exact (Hhandler name).
Qed.

(** No exception leaves the loop body of the data extraction: both [try]
    blocks have a [catch] clause, and the inner clause throws nothing. *)
Lemma try_pattern_returns (pattern : regex) (command : string) :
  exists found, try_pattern pattern command = Returns found.
Proof.
  unfold try_pattern.
  destruct (exec no_flags pattern command) as [m | ]; [ | exists None; reflexivity ].
  destruct (capture (groups m) 1) as [g | ]; [ | exists None; reflexivity ].
  destruct (String.eqb g ""); [ exists None; reflexivity | ].
  apply try_catch_returns. intros error.
  apply try_catch_returns. intros fixError.
  exists None. reflexivity.
Qed.

Lemma try_patterns_returns (patterns : list regex) (command : string) :
  exists found, try_patterns patterns command = Returns found.
Proof.
  induction patterns as [ | pattern patterns IH ]; [ exists None; reflexivity | ].
  change (try_patterns (pattern :: patterns) command)
    with (found ← try_pattern pattern command;
          match found with
          | Some v => mret (Some v)
          | None => try_patterns patterns command
          end).
  destruct (try_pattern_returns pattern command) as [[v | ] ->].
  - exists (Some v). reflexivity.
  - exact IH.
Qed.

Lemma extractDataAggressively_returns (command : string) :
  exists data, extractDataAggressively command = Returns data.
Proof.
  unfold extractDataAggressively.
  destruct (try_patterns_returns dataPatterns command) as [[v | ] ->];
    eexists; reflexivity.
Qed.

(** [parseCurl] always returns, and what it returns is made of the four
    extractions. *)
Lemma parseCurl_returns (curlCommand : string) :
  exists data,
    extractDataAggressively curlCommand = Returns data
    /\ parseCurl curlCommand
       = Returns (mkRequest (promote data (default "GET" (method_flag curlCommand)))
                            (default "" (extract_url urlPatterns curlCommand))
                            (extract_headers curlCommand) data []).
Proof.
  destruct (extractDataAggressively_returns curlCommand) as [data Hdata].
  exists data. split; [ exact Hdata | ].
  unfold parseCurl. rewrite Hdata. reflexivity.
Qed.

Lemma extract_url_none (patterns : list regex) (curlCommand : string) :
  Forall (fun pattern => exec no_flags pattern curlCommand = None) patterns ->
  extract_url patterns curlCommand = None.
Proof.
  induction 1 as [ | pattern patterns Hp _ IH ]; simpl; [ reflexivity | ].
  rewrite Hp. exact IH.
Qed.

(** C6, as the code has it.  When none of the URL patterns matches the
    input, [parseCurl] does not fail: it returns a request whose URL is the
    empty string.  [runTests] sees the empty URL and returns at once: no
    test case is generated, nothing is sent, no verdict is added to the
    results (which are empty for a new tester), nothing is counted and no
    summary is printed. *)
Theorem no_url_aborts_run (rand : nat -> Q) (net : nat -> Request -> NetEvent)
    (before : list Verdict) (curlCommand : string) (expectedStatus : Z) :
  Forall (fun pattern => exec no_flags pattern curlCommand = None) urlPatterns ->
  exists parsed,
    parseCurl curlCommand = Returns parsed
    /\ url parsed = ""
    /\ runTests rand net before curlCommand expectedStatus
       = Returns (mkRun parsed [] (mkRunState before 0 0 []) None).
Proof.
  intros Hnone.
  destruct (parseCurl_returns curlCommand) as (data & _ & Hparsed).
  rewrite (extract_url_none _ _ Hnone) in Hparsed.
  eexists. split; [ exact Hparsed | ]. split; [ reflexivity | ].
  unfold runTests. rewrite Hparsed. reflexivity.
Qed.

Lemma no_url_aborts_run_witness :
  exists parsed,
    parseCurl "hello world" = Returns parsed
    /\ url parsed = ""
    /\ runTests (fun _ => 0%Q) always_ok [] "hello world" 201
       = Returns (mkRun parsed [] (mkRunState [] 0 0 []) None).
Proof.
  apply (no_url_aborts_run (fun _ => 0%Q) always_ok [] "hello world" 201).
  unfold urlPatterns. repeat constructor; vm_compute; reflexivity.
Defined.

(** C6 fails as stated: on the text [hello world] no URL pattern matches,
    and [parseCurl] returns, with the URL empty, the method GET, no header
    and no payload; it does not throw. *)
Lemma parseCurl_returns_without_url :
  Forall (fun pattern => exec no_flags pattern "hello world" = None) urlPatterns
  /\ parseCurl "hello world" = Returns no_target
  /\ parseCurl "hello world" <> Throws "MissingTargetError".
Proof.
  split; [ unfold urlPatterns; repeat constructor; vm_compute; reflexivity | ].
  assert (H : parseCurl "hello world" = Returns no_target) by (vm_compute; reflexivity).
  split; [ exact H | rewrite H; discriminate ].
Qed.

(** C8.  The code at the failing input.  In [curl http://h.example/x -d '0']
    the third data pattern finds the payload: the text between the quotes
    parses, and [extractDataAggressively] returns the number 0.  There is
    no method flag.  The request that [parseCurl] returns has the payload 0
    and the method GET: the promotion of line 87 tests the payload for
    truthiness, not for having been found. *)
Lemma falsy_payload_keeps_GET :
  try_pattern (data_pattern "-d" "'") "curl http://h.example/x -d '0'"
  = Returns (Some (JInt 0))
  /\ extractDataAggressively "curl http://h.example/x -d '0'" = Returns (JInt 0)
  /\ method_flag "curl http://h.example/x -d '0'" = None
  /\ parseCurl "curl http://h.example/x -d '0'"
     = Returns (mkRequest "GET" "http://h.example/x" ∅ (JInt 0) []).
Proof.
  repeat split; vm_compute; reflexivity.
Qed.

(** * Further properties *)

(** ** What the traversal visits *)

Lemma traverse_value_resolves (v0 : jsval) :
  forall (pre : list string) (v : jsval) (P : list string),
    wf_json v0 = true ->
    In (v, P) (traverse_value v0 pre) ->
    exists o Q, v0 = JObj o /\ Q <> [] /\ P = pre ++ Q /\ lookup_path o Q = Some v.
Proof.
  induction v0 as [ | | b | n | s | items _ | fields IH ] using jsval_ind;
    intros pre v P Hwf Hin; try (simpl in Hin; contradiction).
  pose proof (wf_object_keys fields Hwf) as Hnd.
  simpl in Hin. apply in_flat_map in Hin as ([k w] & Hkw & Hin). simpl in Hin.
  assert (Hget : obj_get fields k = Some w)
    by (apply obj_get_NoDup; [ exact Hnd | apply list_elem_of_In, Hkw ]).
  exists fields. destruct Hin as [[= <- <-] | Hin].
  - exists [k]. repeat split; [ discriminate | ]. simpl. rewrite Hget. reflexivity.
  - rewrite Forall_forall in IH.
    assert (Hwfw : wf_json w = true).
    { simpl in Hwf. apply andb_prop in Hwf as [_ Hwf]. rewrite forallb_forall in Hwf.
      exact (Hwf _ Hkw). }
    destruct (IH (k, w) (proj2 (list_elem_of_In _ _) Hkw) (pre ++ [k]) v P Hwfw Hin)
      as (o' & Q' & Hw & HQ' & -> & Hlook).
    simpl in Hw. subst w.
    exists (k :: Q'). repeat split; [ discriminate | rewrite <- app_assoc; reflexivity | ].
    simpl. rewrite Hget. destruct Q'; [ congruence | exact Hlook ].
Qed.

Lemma resolves_traversed (Q : list string) :
  forall (o : jsobject) (pre : list string) (v : jsval),
    Q <> [] -> lookup_path o Q = Some v ->
    In (v, pre ++ Q) (traverse_value (JObj o) pre).
Proof.
  induction Q as [ | k rest IH ]; intros o pre v Hne Hlook; [ congruence | ].
  simpl in Hlook. destruct (obj_get o k) as [w | ] eqn:Hget; [ | discriminate ].
  apply obj_get_elem, list_elem_of_In in Hget.
  simpl. apply in_flat_map. exists (k, w). split; [ exact Hget | ]. simpl.
  destruct rest as [ | k2 rest ].
  - injection Hlook as ->. left. reflexivity.
  - right. destruct w; try discriminate.
    replace (pre ++ k :: k2 :: rest) with ((pre ++ [k]) ++ k2 :: rest)
      by (rewrite <- app_assoc; reflexivity).
    apply IH; [ discriminate | exact Hlook ].
Qed.

(** X1.  The traversal of well-formed data visits exactly the nodes that can be
    reached through plain objects, each one with the path that reads it
    back.  Arrays are visited and not entered. *)
Theorem traversal_visits_reachable_nodes (d : jsobject) (v : jsval) (P : list string) :
  wf_object d = true ->
  In (v, P) (traverseObject d []) <-> P <> [] /\ lookup_path d P = Some v.
Proof.
  intros Hwf. split.
  - intros Hin.
    destruct (traverse_value_resolves (JObj d) [] v P Hwf Hin)
      as (o & Q & [= <-] & HQ & -> & Hlook).
    split; assumption.
  - intros [Hne Hlook]. exact (resolves_traversed P d [] v Hne Hlook).
Qed.

Lemma traversal_visits_reachable_nodes_witness :
  In (JInt 2020, ["data"; "year"]) (traverseObject nested_payload [])
  <-> ["data"; "year"] <> [] /\ lookup_path nested_payload ["data"; "year"] = Some (JInt 2020).
Proof.
  apply (traversal_visits_reachable_nodes nested_payload). reflexivity.
Defined.

(** ** One write, one place *)

Lemma lookup_path_split (A : list string) :
  forall (o : jsobject) (B : list string) (v : jsval),
    A <> [] -> B <> [] -> lookup_path o (A ++ B) = Some v ->
    exists c, lookup_path o A = Some (JObj c) /\ lookup_path c B = Some v.
Proof.
  induction A as [ | k A IH ]; intros o B v HA HB Hlook; [ congruence | ].
  change ((k :: A) ++ B) with (k :: (A ++ B)) in Hlook. simpl in Hlook |- *.
  destruct (obj_get o k) as [w | ]; [ | discriminate ].
  destruct A as [ | k2 A ].
  - simpl in Hlook. destruct B as [ | b B ]; [ congruence | ].
    destruct w; try discriminate. eauto.
  - change ((k2 :: A) ++ B) with (k2 :: (A ++ B)) in Hlook.
    destruct w; try discriminate.
    apply IH; [ discriminate | exact HB | exact Hlook ].
Qed.

(** A path that reads a node has plain objects at all its segments before
    the last, so nothing on it blocks a write. *)
Lemma resolving_path_not_blocked (o : jsobject) (P : list string) (v : jsval) :
  lookup_path o P = Some v -> ~ blocked_at o P.
Proof.
  intros Hlook (pre & key & post & x & -> & Hpost & Hx & Hb).
  replace (pre ++ key :: post) with ((pre ++ [key]) ++ post) in Hlook
    by (rewrite <- app_assoc; reflexivity).
  apply lookup_path_split in Hlook as (c & Hc & _);
    [ | destruct pre; discriminate | exact Hpost ].
  rewrite Hc in Hx. injection Hx as <-. discriminate.
Qed.

(** X2.  The write of a mutation generator always lands: on well-formed data and
    a path of the traversal, [setNestedValue] logs nothing, and the new
    value is read back at the path. *)
Theorem mutation_lands_on_visited_path (d : jsobject) (v x : jsval) (P : list string) :
  wf_object d = true ->
  In (v, P) (traverseObject d []) ->
  snd (setNestedValue (clone_object d) P x) = []
  /\ lookup_path (mutated d P x) P = Some x.
Proof.
  intros Hwf Hin.
  destruct (traverse_value_resolves (JObj d) [] v P Hwf Hin)
    as (o & Q & [= <-] & HQ & -> & Hlook).
  unfold mutated. rewrite (clone_object_wf d Hwf). simpl app.
  destruct (setNestedLoop_written Q Q d x HQ (resolving_path_not_blocked d Q v Hlook))
    as [Hread Hlog].
  split; assumption.
Qed.

Lemma mutation_lands_on_visited_path_witness :
  snd (setNestedValue (clone_object nested_payload) ["data"; "year"] JNull) = []
  /\ lookup_path (mutated nested_payload ["data"; "year"] JNull) ["data"; "year"]
     = Some JNull.
Proof.
  apply (mutation_lands_on_visited_path nested_payload (JInt 2020) JNull ["data"; "year"]).
  - reflexivity.
  - simpl. auto.
Defined.

Lemma lookup_path_head (o o' : jsobject) (b : string) (Q : list string) :
  obj_get o' b = obj_get o b -> lookup_path o' (b :: Q) = lookup_path o (b :: Q).
Proof. intros H. simpl. rewrite H. reflexivity. Qed.

Lemma setNestedLoop_frame (full common : list string) :
  forall (o : jsobject) (a b : string) (P' Q' : list string) (x : jsval),
    a <> b ->
    lookup_path (fst (setNestedLoop full o (common ++ a :: P') x)) (common ++ b :: Q')
    = lookup_path o (common ++ b :: Q').
Proof.
  induction common as [ | c cs IH ]; intros o a b P' Q' x Hab.
  - change ([] ++ a :: P') with (a :: P'). change ([] ++ b :: Q') with (b :: Q').
    apply lookup_path_head.
    destruct P' as [ | p P' ]; [ simpl; apply obj_get_set_ne, Hab | ].
    change (setNestedLoop full o (a :: p :: P') x)
      with (match obj_read o a with
            | JUndefined | JNull =>
                let '(c, lg) := setNestedLoop full [] (p :: P') x in
                (obj_set o a (JObj c), lg)
            | JObj child0 =>
                let '(c, lg) := setNestedLoop full child0 (p :: P') x in
                (obj_set o a (JObj c), lg)
            | _ => (o, [skip_intermediate full])
            end).
    destruct (obj_read o a); try reflexivity;
      match goal with
      | |- context [setNestedLoop ?f ?ch ?pa ?va] =>
          destruct (setNestedLoop f ch pa va) as [c lg]
      end; simpl; apply obj_get_set_ne, Hab.
  - change ((c :: cs) ++ a :: P') with (c :: (cs ++ a :: P')).
    change ((c :: cs) ++ b :: Q') with (c :: (cs ++ b :: Q')).
    destruct (cs ++ a :: P') as [ | p rest ] eqn:EP; [ destruct cs; discriminate | ].
    destruct (cs ++ b :: Q') as [ | q restQ ] eqn:EQ; [ destruct cs; discriminate | ].
    change (setNestedLoop full o (c :: p :: rest) x)
      with (match obj_read o c with
            | JUndefined | JNull =>
                let '(ch, lg) := setNestedLoop full [] (p :: rest) x in
                (obj_set o c (JObj ch), lg)
            | JObj child0 =>
                let '(ch, lg) := setNestedLoop full child0 (p :: rest) x in
                (obj_set o c (JObj ch), lg)
            | _ => (o, [skip_intermediate full])
            end).
    assert (Hfresh : forall child,
               lookup_path
                 (fst (let '(ch, lg) := setNestedLoop full child (p :: rest) x in
                       (obj_set o c (JObj ch), lg))) (c :: q :: restQ)
               = lookup_path child (q :: restQ)).
    { intros child. rewrite <- EP, <- EQ.
      pose proof (IH child a b P' Q' x Hab) as Hchild.
      destruct (setNestedLoop full child (cs ++ a :: P') x) as [ch lg].
      simpl fst in *. rewrite EQ in *.
      change (lookup_path (obj_set o c (JObj ch)) (c :: q :: restQ))
        with (match obj_get (obj_set o c (JObj ch)) c with
              | Some (JObj child1) => lookup_path child1 (q :: restQ)
              | _ => None
              end).
      rewrite obj_get_set_eq. exact Hchild. }
    unfold obj_read.
    destruct (obj_get o c) as [w | ] eqn:Hget.
    + destruct w; try reflexivity; rewrite Hfresh;
        change (lookup_path o (c :: q :: restQ))
          with (match obj_get o c with
                | Some (JObj child1) => lookup_path child1 (q :: restQ)
                | _ => None
                end);
        rewrite Hget; reflexivity.
    + rewrite Hfresh.
      change (lookup_path o (c :: q :: restQ))
        with (match obj_get o c with
              | Some (JObj child1) => lookup_path child1 (q :: restQ)
              | _ => None
              end).
      rewrite Hget. reflexivity.
Qed.

(** X3.  A write along a path without the name of a member of
    [Object.prototype] leaves every path that parts ways with it as it was:
    what such a path read before, through own properties, it reads
    after. *)
Theorem setNestedValue_frame (o : jsobject) (P Q : list string) (x : jsval) :
  ordinary_path P = true ->
  diverge P Q ->
  lookup_path (fst (setNestedValue o P x)) Q = lookup_path o Q.
Proof.
  intros _ (common & a & b & P' & Q' & Hab & -> & ->).
  unfold setNestedValue. apply setNestedLoop_frame, Hab.
Qed.

Lemma setNestedValue_frame_witness :
  lookup_path (fst (setNestedValue nested_payload ["data"; "year"] JNull)) ["name"]
  = lookup_path nested_payload ["name"].
Proof.
  apply (setNestedValue_frame nested_payload ["data"; "year"] ["name"] JNull).
  - reflexivity.
  - exists [], "data", "name", ["year"], []. repeat split. discriminate.
Defined.

Lemma keys_obj_set (o : jsobject) (k : string) (v : jsval) :
  keys (obj_set o k v) = keys_after_write o k.
Proof.
  unfold keys_after_write. induction o as [ | [k' v'] o IH ]; simpl; [ reflexivity | ].
  rewrite (String.eqb_sym k k'). destruct (String.eqb k' k); simpl; [ reflexivity | ].
  rewrite IH. unfold keys. destruct (existsb (String.eqb k) (map fst o)); reflexivity.
Qed.

Lemma keys_setNestedLoop (full : list string) (o : jsobject) (key : string)
    (rest : list string) (x : jsval) :
  keys (fst (setNestedLoop full o (key :: rest) x)) = keys_after_write o key.
Proof.
  destruct rest as [ | k2 rest ]; [ apply keys_obj_set | ].
  change (setNestedLoop full o (key :: k2 :: rest) x)
    with (match obj_read o key with
          | JUndefined | JNull =>
              let '(c, lg) := setNestedLoop full [] (k2 :: rest) x in
              (obj_set o key (JObj c), lg)
          | JObj child0 =>
              let '(c, lg) := setNestedLoop full child0 (k2 :: rest) x in
              (obj_set o key (JObj c), lg)
          | _ => (o, [skip_intermediate full])
          end).
  destruct (obj_read o key) eqn:Hread;
    try (match goal with
         | |- context [setNestedLoop ?f ?ch ?pa ?va] =>
             destruct (setNestedLoop f ch pa va) as [c lg]
         end; apply keys_obj_set);
    (simpl; unfold keys_after_write;
     assert (Hin : key ∈ keys o)
       by (apply (obj_get_key o key (obj_read o key)), obj_read_get;
           [ reflexivity | rewrite Hread; discriminate ]);
     apply list_elem_of_In in Hin;
     replace (existsb (String.eqb key) (keys o)) with true; [ reflexivity | ];
     symmetry; apply existsb_exists; exists key; split;
     [ exact Hin | apply String.eqb_refl ]).
Qed.

(** X4.  A write never removes a top-level key and never reorders the
    keys: the first key of the path keeps its place if it was there and is
    added at the end if it was not.  The first key is neither the name of a
    member of [Object.prototype] nor written with digits only (the engine
    lists an array index before the other keys). *)
Theorem setNestedValue_keys (o : jsobject) (key : string) (rest : list string) (x : jsval) :
  ordinary_key key = true ->
  digits_only key = false ->
  keys (fst (setNestedValue o (key :: rest) x)) = keys_after_write o key.
Proof. intros _ _. apply keys_setNestedLoop. Qed.

Lemma setNestedValue_keys_witness :
  keys (fst (setNestedValue nested_payload ["meta"; "tag"] (JStr "new")))
  = keys_after_write nested_payload "meta".
Proof.
  apply (setNestedValue_keys nested_payload "meta" ["tag"] (JStr "new")); reflexivity.
Defined.

(** ** The cases that replace one value *)

Lemma keys_after_write_present (o : jsobject) (key : string) (v : jsval) :
  obj_get o key = Some v -> keys_after_write o key = keys o.
Proof.
  intros Hget. unfold keys_after_write.
  replace (existsb (String.eqb key) (keys o)) with true; [ reflexivity | ].
  symmetry. apply existsb_exists. exists key. split.
  - apply list_elem_of_In, (obj_get_key o key v), Hget.
  - apply String.eqb_refl.
Qed.

Lemma replacement_cases_shape (b : Request) (d : jsobject) (tc : TestCase) :
  payload_object b = Some d ->
  In tc (replacement_cases b) ->
  exists v P x,
    In (v, P) (traverseObject d [])
    /\ replacement_of (type tc) v = Some x
    /\ request tc = with_data b (JObj (mutated d P x)).
Proof.
  intros Hd. unfold replacement_cases, generateInvalidTypeTests, generateNullValueTests,
    generateSecurityTests, generateEdgeCaseTests. rewrite Hd.
  rewrite !in_app_iff, !in_flat_map.
  intros [ H | [ H | [ H | H ] ] ]; destruct H as ([v P] & Hvisit & Hin);
    cbv beta iota in Hin; destruct v; simpl in Hin;
    repeat (destruct Hin as [ <- | Hin ];
            [ eexists _, _, _; split; [ exact Hvisit | split; reflexivity ] | ]);
    contradiction.
Qed.

(** X5.  Every Type, Null, Empty, Security and Edge case carries the
    original payload with one node replaced, for a payload with finite
    numbers.  The payload of the case is a plain object with the same
    top-level keys in the same order; at the path of a node of the original
    it holds the value that the tag of the case prescribes for what the
    node held; and a path that parts ways with that path reads what it
    reads in the original. *)
Theorem replacement_cases_change_one_node (b : Request) (d : jsobject) (tc : TestCase) :
  payload_object b = Some d ->
  wf_object d = true ->
  finite_json (JObj d) = true ->
  In tc (replacement_cases b) ->
  exists o P old new,
    payload tc = JObj o
    /\ P <> [] /\ lookup_path d P = Some old
    /\ replacement_of (type tc) old = Some new
    /\ lookup_path o P = Some new
    /\ keys o = keys d
    /\ forall Q, diverge P Q -> lookup_path o Q = lookup_path d Q.
Proof.
  intros Hd Hwf _ Hin.
  destruct (replacement_cases_shape b d tc Hd Hin) as (v & P & x & Hvisit & Hnew & Hreq).
  destruct (traverse_value_resolves (JObj d) [] v P Hwf Hvisit)
    as (o & Q & [= <-] & HQ & -> & Hlook).
  simpl app in *.
  exists (mutated d Q x), Q, v, x. unfold payload. rewrite Hreq. simpl data.
  unfold mutated, setNestedValue. rewrite (clone_object_wf d Hwf).
  split; [ reflexivity | ]. split; [ exact HQ | ]. split; [ exact Hlook | ].
  split; [ exact Hnew | ]. split; [ | split ].
  - apply (setNestedLoop_written Q Q d x HQ (resolving_path_not_blocked d Q v Hlook)).
  - destruct Q as [ | key rest ]; [ congruence | ].
    rewrite keys_setNestedLoop.
    simpl in Hlook. destruct (obj_get d key) as [w | ] eqn:Hget; [ | discriminate ].
    apply (keys_after_write_present d key w Hget).
  - intros Q' (common & a & c & P' & Q'' & Hac & -> & ->).
    apply setNestedLoop_frame, Hac.
Qed.

Lemma replacement_cases_change_one_node_witness :
  exists o P old new,
    payload (negative_case "Negative - Type"
                           "Wrong type for name (number instead of string)"
                           (scenario_request ∅)
                           (mutated scenario_payload ["name"] (JInt 12345))) = JObj o
    /\ P <> [] /\ lookup_path scenario_payload P = Some old
    /\ replacement_of "Negative - Type" old = Some new
    /\ lookup_path o P = Some new
    /\ keys o = keys scenario_payload
    /\ forall Q, diverge P Q -> lookup_path o Q = lookup_path scenario_payload Q.
Proof.
  apply (replacement_cases_change_one_node (scenario_request ∅) scenario_payload
           (negative_case "Negative - Type"
                          "Wrong type for name (number instead of string)"
                          (scenario_request ∅)
                          (mutated scenario_payload ["name"] (JInt 12345)))).
  - reflexivity.
  - reflexivity.
  - reflexivity.
  - left. reflexivity.
Defined.

(** ** What every generated case keeps *)

Lemma missing_requests (b : Request) :
  Forall (fun tc => exists d', request tc = with_data b d') (generateMissingFieldTests b).
Proof.
  unfold generateMissingFieldTests. destruct (payload_object b) as [d | ]; [ | constructor ].
  apply Forall_app; split.
  - apply Forall_map, Forall_forall. intros; simpl; eauto.
  - apply Forall_flat_map, Forall_forall. intros field _.
    destruct (obj_read d field); try constructor.
    apply Forall_map, Forall_forall. intros; simpl; eauto.
Qed.

Lemma replacement_requests (b : Request) :
  Forall (fun tc => exists d', request tc = with_data b d') (replacement_cases b).
Proof.
  apply Forall_forall. intros tc Hin. apply list_elem_of_In in Hin.
  unfold replacement_cases in Hin.
  destruct (payload_object b) as [d | ] eqn:Hd.
  - destruct (replacement_cases_shape b d tc Hd Hin) as (v & P & x & _ & _ & Hreq). eauto.
  - unfold generateInvalidTypeTests, generateNullValueTests, generateSecurityTests,
      generateEdgeCaseTests in Hin. rewrite Hd in Hin. contradiction.
Qed.

Lemma fuzz_rounds_requests rand b d i count n :
  Forall (fun tc => exists d', request tc = with_data b d')
         (fst (fuzz_rounds rand b d i count n)).
Proof.
  revert i n. induction count as [ | count IH ]; intros i n; simpl; [ constructor | ].
  unfold fuzz_round.
  destruct (fold_left _ _ _) as [modifiedData n1].
  specialize (IH (S i) n1). destruct (fuzz_rounds rand b d (S i) count n1) as [tcs n2].
  simpl. constructor; [ simpl; eauto | exact IH ].
Qed.

Lemma payload_cases_requests rand n (b : Request) :
  Forall (fun tc => exists d', request tc = with_data b d')
         (generateMissingFieldTests b ++ replacement_cases b
          ++ fst (generateFuzzTests rand n b)).
Proof.
  apply Forall_app; split; [ apply missing_requests | ].
  apply Forall_app; split; [ apply replacement_requests | ].
  unfold generateFuzzTests. destruct (payload_object b); [ | constructor ].
    apply fuzz_rounds_requests.
Qed.

Lemma generateTestCases_split rand (p : Request) (s : Z) :
  let b := clone_request p in
  exists payload_cases,
    generateTestCases rand p s
    = mkTestCase "Positive" "Valid input data" (clone_request b) s
                 (Z_to_string s +:+ " " +:+ getStatusText s)
      :: payload_cases
      ++ (if (0 <? size (headers b))%nat then generateHeaderTests b else [])
    /\ Forall (fun tc => is_rejection_type (type tc) = true \/ type tc = "Fuzz") payload_cases
    /\ Forall (fun tc => exists d', request tc = with_data b d') payload_cases.
Proof.
  intros b. unfold generateTestCases. fold b.
  destruct (truthy (data b) && is_plain_object (data b)).
  - exists (generateMissingFieldTests b ++ replacement_cases b
            ++ fst (generateFuzzTests rand 0 b)).
    unfold replacement_cases. rewrite <- !app_assoc. split; [ reflexivity | ]. split.
    + repeat (apply Forall_app; split);
        try (eapply Forall_impl;
             [ first [ apply missing_types | apply invalid_type_types
                     | apply null_value_types | apply security_types | apply edge_types ]
             | intros; left; assumption ]).
      eapply Forall_impl; [ apply fuzz_types | intros; right; assumption ].
    + pose proof (payload_cases_requests rand 0 b) as H.
      unfold replacement_cases in H. rewrite <- !app_assoc in H. exact H.
  - exists []. repeat split; constructor.
Qed.

(** X6.  Every generated case is aimed at the target of the parsed request: it
    has its method and its URL, and, unless it is a Header case, its
    headers. *)
Theorem generated_cases_keep_target (rand : nat -> Q) (p : Request) (s : Z) (tc : TestCase) :
  In tc (generateTestCases rand p s) ->
  method (request tc) = method p
  /\ url (request tc) = url p
  /\ (type tc <> "Negative - Header" -> headers (request tc) = headers p).
Proof.
  destruct (generateTestCases_split rand p s) as (cases & -> & _ & Hreq).
  intros [ <- | Hin ]; [ repeat split | ].
  apply in_app_iff in Hin as [ Hin | Hin ].
  - apply list_elem_of_In in Hin.
    rewrite Forall_forall in Hreq. destruct (Hreq tc Hin) as [d' ->]. repeat split.
  - destruct (0 <? size (headers (clone_request p)))%nat; [ | contradiction ].
    pose proof (header_types (clone_request p)) as Hty.
    rewrite Forall_forall in Hty. specialize (Hty tc (proj2 (list_elem_of_In _ _) Hin)).
    unfold generateHeaderTests in Hin.
    destruct (has_content_type _); [ | contradiction ].
    destruct Hin as [ <- | [ <- | [] ] ]; repeat split; intros Hne; contradiction.
Qed.

Lemma generated_cases_keep_target_witness :
  method (request fuzz_case_1) = method (scenario_request ∅)
  /\ url (request fuzz_case_1) = url (scenario_request ∅)
  /\ (type fuzz_case_1 <> "Negative - Header"
      -> headers (request fuzz_case_1) = headers (scenario_request ∅)).
Proof.
  apply (generated_cases_keep_target (fun _ => 1%Q) (scenario_request ∅) 201 fuzz_case_1).
  vm_compute. auto 30.
Defined.

(** X7.  The first generated case is the Positive case, with the expected status
    of the caller; it is the only one.  Every other case passes exactly on
    a status of 400 or more: the exact comparison with the expected status
    is never used on a generated case. *)
Theorem generated_cases_verdicts (rand : nat -> Q) (p : Request) (s : Z) :
  exists positive rest,
    generateTestCases rand p s = positive :: rest
    /\ type positive = "Positive" /\ expectedStatus positive = s
    /\ Forall (fun tc => type tc <> "Positive"
                         /\ forall actual e, isExpectedResult actual e (type tc)
                                             = (400 <=? actual)) rest.
Proof.
  destruct (generateTestCases_split rand p s) as (cases & -> & Hty & _).
  eexists _, _. split; [ reflexivity | ]. split; [ reflexivity | ]. split; [ reflexivity | ].
  apply Forall_app; split.
  - eapply Forall_impl; [ exact Hty | ]. intros tc [ H | H ]; simpl in *.
    + split; [ intros E; rewrite E in H; discriminate | ].
      intros; apply isExpectedResult_rejection, H.
    + rewrite H. split; [ discriminate | reflexivity ].
  - destruct (0 <? size _)%nat; [ | constructor ].
    eapply Forall_impl; [ apply header_types | ]. intros tc H; simpl in H. rewrite H.
    split; [ discriminate | reflexivity ].
Qed.

(** ** How many cases are generated *)

Section Counting.

Variable b : Request.
Variable d : jsobject.



Lemma security_count (l : list Visit) :
  length (flat_map (fun '(value, path) =>
                      if typeof_string value then
                        map (fun '(name, payload) =>
                               negative_case ("Security - " +:+ name)
                                 (name +:+ " injection in " +:+ join "." path)
                                 b (mutated d path (JStr payload)))
                            attacks
                      else []) l)
  = (6 * count_visits typeof_string l)%nat.
Proof.
  unfold count_visits. induction l as [ | [v P] l IH ]; [ reflexivity | ].
  cbn [flat_map List.filter fst]. rewrite length_app, IH.
  destruct v; simpl; lia.
Qed.


End Counting.






(** ** What a run leaves behind *)

Section RunInvariants.

Variable net : nat -> Request -> NetEvent.


Lemma run_wire_sublist (tcs : list TestCase) :
  forall st : RunState,
  exists sent,
    wire (fold_left (run_one net) tcs st) = wire st ++ sent
    /\ sublist sent (map request tcs)
    /\ (no_setup_error net -> sent = map request tcs).
Proof.
  induction tcs as [ | tc tcs IH ]; intros st.
  - exists []. simpl. rewrite app_nil_r. repeat split. constructor.
  - destruct (IH (run_one net st tc)) as (sent & Hwire & Hsub & Hall).
    simpl fold_left. rewrite Hwire. clear Hwire IH.
    unfold run_one, executeRequest.
    destruct (net (length (wire st)) (request tc)) eqn:Hnet; cbn [wire];
      try (exists (request tc :: sent); rewrite <- app_assoc; split; [ reflexivity | ];
           split; [ apply sublist_skip, Hsub | intros H; simpl; f_equal; auto ]).
    exists sent. split; [ reflexivity | ]. split; [ apply sublist_cons, Hsub | ].
    intros H. destruct (H _ _ _ Hnet).
Qed.

End RunInvariants.

(** The two ways a run ends: without a test case, or after the loop over
    the generated ones. *)
Lemma runTests_cases (rand : nat -> Q) (net : nat -> Request -> NetEvent)
    (before : list Verdict) (curlCommand : string) (expectedStatus : Z) (r : Run) :
  runTests rand net before curlCommand expectedStatus = Returns r ->
  exists tcs,
    generated r = tcs
    /\ final r = fold_left (run_one net) tcs (mkRunState before 0 0 []).
Proof.
  unfold runTests. destruct (parseCurl curlCommand) as [p | name]; [ | discriminate ].
  unfold mbind, completion_bind, mret, completion_ret.
  destruct (String.eqb (url p) ""); intros [= <-].
  - exists []. split; reflexivity.
  - eexists. split; reflexivity.
Qed.



(** X12.  A run puts the requests of the generated cases on the wire in
    generation order, each at most once; if no request fails before it is
    sent, the requests on the wire are exactly those of the generated
    cases. *)
Theorem run_sends_cases_in_order (rand : nat -> Q) (net : nat -> Request -> NetEvent)
    (before : list Verdict) (curlCommand : string) (expectedStatus : Z) (r : Run) :
  runTests rand net before curlCommand expectedStatus = Returns r ->
  sublist (wire (final r)) (map request (generated r))
  /\ (no_setup_error net -> wire (final r) = map request (generated r)).
Proof.
  intros Hrun. destruct (runTests_cases _ _ _ _ _ r Hrun) as (tcs & -> & ->).
  destruct (run_wire_sublist net tcs (mkRunState before 0 0 []))
    as (sent & -> & Hsub & Hall).
  split; assumption.
Qed.

Lemma run_sends_cases_in_order_witness :
  exists r,
    runTests (fun _ => 1%Q) always_timeout [] plain_get 201 = Returns r
    /\ sublist (wire (final r)) (map request (generated r))
    /\ (no_setup_error always_timeout -> wire (final r) = map request (generated r)).
Proof.
  assert (H : exists r, runTests (fun _ => 1%Q) always_timeout [] plain_get 201 = Returns r)
    by (vm_compute; eexists; reflexivity).
  destruct H as [r Hr]. exists r. split; [ exact Hr | ].
  apply (run_sends_cases_in_order _ _ _ _ _ r Hr).
Defined.

(** ** Fuzz cases *)

Lemma keys_after_write_elem (o : jsobject) (key : string) :
  In key (keys o) -> keys_after_write o key = keys o.
Proof.
  intros Hin. unfold keys_after_write.
  replace (existsb (String.eqb key) (keys o)) with true; [ reflexivity | ].
  symmetry. apply existsb_exists. exists key. split; [ exact Hin | apply String.eqb_refl ].
Qed.

Lemma visited_path_head (d : jsobject) (v : jsval) (P : list string) :
  wf_object d = true -> In (v, P) (traverseObject d []) ->
  exists key rest, P = key :: rest /\ In key (keys d).
Proof.
  intros Hwf Hin.
  destruct (traverse_value_resolves (JObj d) [] v P Hwf Hin)
    as (o & Q & [= <-] & HQ & -> & Hlook).
  destruct Q as [ | key rest ]; [ congruence | ]. exists key, rest. split; [ reflexivity | ].
  simpl in Hlook. destruct (obj_get d key) as [w | ] eqn:Hget; [ | discriminate ].
  apply list_elem_of_In, (obj_get_key d key w Hget).
Qed.

Lemma fuzz_visit_eq (rand : nat -> Q) (o : jsobject) (n : nat) (v : Visit) :
  fuzz_visit rand (o, n) v
  = if below_threshold (rand n)
    then (fst (setNestedValue o (snd v) (pick_fuzz (rand (S n)))), S (S n))
    else (o, S n).
Proof. reflexivity. Qed.

Lemma fuzz_visits_keys (rand : nat -> Q) (ks : list string) (l : list Visit) :
  Forall (fun v : Visit => exists key rest, snd v = key :: rest /\ In key ks) l ->
  forall (o : jsobject) (n : nat),
    keys o = ks -> keys (fst (fold_left (fuzz_visit rand) l (o, n))) = ks.
Proof.
  induction 1 as [ | [v P] l (key & rest & HP & Hkey) _ IH ]; intros o n Hks;
    [ exact Hks | ].
  simpl in HP. subst P. cbn [fold_left]. rewrite fuzz_visit_eq.
  destruct (below_threshold (rand n)); [ | apply IH, Hks ].
  apply IH. cbn [snd]. unfold setNestedValue. rewrite keys_setNestedLoop.
  rewrite keys_after_write_elem; [ exact Hks | rewrite Hks; exact Hkey ].
Qed.

Lemma fuzz_rounds_payloads (rand : nat -> Q) (b : Request) (d : jsobject)
    (Q : jsobject -> Prop) :
  (forall n, Q (fst (fold_left (fuzz_visit rand) (traverseObject d []) (clone_object d, n)))) ->
  forall count i n,
    Forall (fun tc => exists o, payload tc = JObj o /\ Q o)
           (fst (fuzz_rounds rand b d i count n)).
Proof.
  intros HQ. induction count as [ | count IH ]; intros i n; simpl; [ constructor | ].
  unfold fuzz_round. specialize (HQ n).
  destruct (fold_left _ _ _) as [modifiedData n1].
  specialize (IH (S i) n1). destruct (fuzz_rounds rand b d (S i) count n1) as [tcs n2].
  simpl. constructor; [ | exact IH ].
  exists modifiedData. split; [ reflexivity | exact HQ ].
Qed.

(** X9.  Fuzzing never adds, removes or reorders a top-level field: the payload
    of every Fuzz case is a plain object with the keys of the original
    payload, in their order. *)
Theorem fuzz_cases_keep_keys (rand : nat -> Q) (n : nat) (b : Request) (d : jsobject) :
  payload_object b = Some d ->
  wf_object d = true ->
  Forall (fun tc => exists o, payload tc = JObj o /\ keys o = keys d)
         (fst (generateFuzzTests rand n b)).
Proof.
  intros Hd Hwf. unfold generateFuzzTests. rewrite Hd.
  apply fuzz_rounds_payloads. intros k.
  apply fuzz_visits_keys; [ | rewrite (clone_object_wf d Hwf); reflexivity ].
  apply Forall_forall. intros [v P] Hin. apply list_elem_of_In in Hin.
  apply (visited_path_head d v P Hwf Hin).
Qed.

Lemma fuzz_cases_keep_keys_witness :
  Forall (fun tc => exists o, payload tc = JObj o /\ keys o = keys nested_payload)
         (fst (generateFuzzTests (fun _ => 0%Q) 0 nested_request)).
Proof.
  apply (fuzz_cases_keep_keys (fun _ => 0%Q) 0 nested_request nested_payload); reflexivity.
Defined.




(** ** The payload that [parseCurl] returns *)

Lemma existsb_keys_obj_set (o : jsobject) (k k' : string) (v : jsval) :
  String.eqb k' k = false ->
  existsb (String.eqb k') (map fst (obj_set o k v)) = existsb (String.eqb k') (map fst o).
Proof.
  intros Hne. induction o as [ | [k0 v0] o IH ]; simpl.
  - rewrite Hne. reflexivity.
  - destruct (String.eqb k0 k); simpl; [ reflexivity | rewrite IH; reflexivity ].
Qed.

Lemma wf_object_obj_set (o : jsobject) (k : string) (v : jsval) :
  wf_object o = true -> wf_json v = true -> wf_object (obj_set o k v) = true.
Proof.
  unfold wf_object. induction o as [ | [k0 v0] o IH ]; simpl; intros Ho Hv.
  - rewrite Hv. reflexivity.
  - apply andb_prop in Ho as [Hkeys Hvals].
    apply andb_prop in Hkeys as [Hfresh Hnodup].
    apply andb_prop in Hvals as [Hv0 Hvals].
    destruct (String.eqb k0 k) eqn:Hk; simpl.
    + rewrite Hfresh, Hnodup, Hv, Hvals. reflexivity.
    + rewrite (existsb_keys_obj_set o k k0 v Hk), Hfresh, Hv0. simpl.
      simpl in IH. apply IH; [ | exact Hv ].
      rewrite Hnodup, Hvals. reflexivity.
Qed.

Lemma closing_brace_inv {T} (l : list ascii) (A : list ascii -> option T) (B x : option T) :
  match l with "}"%char :: r => A r | _ => B end = x ->
  (exists r, l = "}"%char :: r /\ A r = x) \/ B = x.
Proof.
  destruct l as [ | c r ]; [ auto | ].
  destruct c as [[] [] [] [] [] [] [] []]; eauto.
Qed.

Lemma closing_bracket_inv {T} (l : list ascii) (A : list ascii -> option T) (B x : option T) :
  match l with "]"%char :: r => A r | _ => B end = x ->
  (exists r, l = "]"%char :: r /\ A r = x) \/ B = x.
Proof.
  destruct l as [ | c r ]; [ auto | ].
  destruct c as [[] [] [] [] [] [] [] []]; eauto.
Qed.

Lemma forallb_snoc {A} (p : A -> bool) (l : list A) (x : A) :
  forallb p l = true -> p x = true -> forallb p (l ++ [x]) = true.
Proof. intros Hl Hx. rewrite forallb_app, Hl. simpl. rewrite Hx. reflexivity. Qed.

Lemma Json_value_wf (fuel : nat) :
  (forall s v r, Json.value fuel s = Some (v, r) -> wf_json v = true)
  /\ (forall s acc v r, forallb wf_json acc = true ->
                        Json.elements fuel s acc = Some (v, r) -> wf_json v = true)
  /\ (forall s acc v r, wf_object acc = true ->
                        Json.members fuel s acc = Some (v, r) -> wf_json v = true).
Proof.
  induction fuel as [ | fuel (IHvalue & IHelements & IHmembers) ];
    [ repeat split; intros; discriminate | ].
  split; [ | split ].
  - intros s v r H.
    change (Json.value (S fuel) s)
      with (match Json.skip_ws s with
            | [] => None
            | c :: rest =>
                if Ascii.eqb c "{" then
                  match Json.skip_ws rest with
                  | "}"%char :: r => Some (JObj [], r)
                  | _ => Json.members fuel rest []
                  end
                else if Ascii.eqb c "[" then
                  match Json.skip_ws rest with
                  | "]"%char :: r => Some (JArr [], r)
                  | _ => Json.elements fuel rest []
                  end
                else if Ascii.eqb c "034" then
                  match Json.string_body (S (length rest)) rest [] with
                  | Some (str, r) => Some (JStr str, r)
                  | None => None
                  end
                else
                  match Json.starts_with "null" (c :: rest),
                        Json.starts_with "true" (c :: rest),
                        Json.starts_with "false" (c :: rest) with
                  | Some r, _, _ => Some (JNull, r)
                  | _, Some r, _ => Some (JBool true, r)
                  | _, _, Some r => Some (JBool false, r)
                  | None, None, None =>
                      match Json.number (c :: rest) with
                      | Some (n, r) => Some (JNum n, r)
                      | None => None
                      end
                  end
            end) in H.
    destruct (Json.skip_ws s) as [ | c rest ]; [ discriminate | ].
    destruct (Ascii.eqb c "{").
    { apply closing_brace_inv in H as [ (r' & _ & [= <- _]) | H ]; [ reflexivity | ].
      apply (IHmembers rest [] v r); [ reflexivity | exact H ]. }
    destruct (Ascii.eqb c "[").
    { apply closing_bracket_inv in H as [ (r' & _ & [= <- _]) | H ]; [ reflexivity | ].
      apply (IHelements rest [] v r); [ reflexivity | exact H ]. }
    destruct (Ascii.eqb c "034").
    { destruct (Json.string_body (S (length rest)) rest []) as [ [str r'] | ];
        [ | discriminate ].
      injection H as <- _. reflexivity. }
    destruct (Json.starts_with "null" (c :: rest));
      [ injection H as <- _; reflexivity | ].
    destruct (Json.starts_with "true" (c :: rest));
      [ injection H as <- _; reflexivity | ].
    destruct (Json.starts_with "false" (c :: rest));
      [ injection H as <- _; reflexivity | ].
    destruct (Json.number (c :: rest)) as [ [n r'] | ]; [ | discriminate ].
    injection H as <- _. reflexivity.
  - intros s acc v r Hacc H.
    change (Json.elements (S fuel) s acc)
      with (match Json.value fuel s with
            | Some (v, r) =>
                match Json.skip_ws r with
                | c :: r' =>
                    if Ascii.eqb c "," then Json.elements fuel r' (acc ++ [v])
                    else if Ascii.eqb c "]" then Some (JArr (acc ++ [v]), r')
                    else None
                | [] => None
                end
            | None => None
            end) in H.
    destruct (Json.value fuel s) as [ [v0 r0] | ] eqn:Hv0; [ | discriminate ].
    apply IHvalue in Hv0.
    destruct (Json.skip_ws r0) as [ | c r' ]; [ discriminate | ].
    destruct (Ascii.eqb c ",").
    { apply (IHelements r' (acc ++ [v0]) v r); [ apply forallb_snoc; assumption | exact H ]. }
    destruct (Ascii.eqb c "]"); [ | discriminate ].
    injection H as <- _. simpl. apply forallb_snoc; assumption.
  - intros s acc v r Hacc H.
    change (Json.members (S fuel) s acc)
      with (match Json.skip_ws s with
            | q :: r0 =>
                if Ascii.eqb q "034" then
                  match Json.string_body (S (length r0)) r0 [] with
                  | Some (key, r1) =>
                      match Json.skip_ws r1 with
                      | colon :: r2 =>
                          if Ascii.eqb colon ":" then
                            match Json.value fuel r2 with
                            | Some (v, r3) =>
                                match Json.skip_ws r3 with
                                | c :: r4 =>
                                    if Ascii.eqb c "," then
                                      Json.members fuel r4 (obj_set acc key v)
                                    else if Ascii.eqb c "}" then
                                      Some (JObj (obj_set acc key v), r4)
                                    else None
                                | [] => None
                                end
                            | None => None
                            end
                          else None
                      | [] => None
                      end
                  | None => None
                  end
                else None
            | [] => None
            end) in H.
    destruct (Json.skip_ws s) as [ | q r0 ]; [ discriminate | ].
    destruct (Ascii.eqb q "034"); [ | discriminate ].
    destruct (Json.string_body (S (length r0)) r0 []) as [ [key r1] | ]; [ | discriminate ].
    destruct (Json.skip_ws r1) as [ | colon r2 ]; [ discriminate | ].
    destruct (Ascii.eqb colon ":"); [ | discriminate ].
    destruct (Json.value fuel r2) as [ [v0 r3] | ] eqn:Hv0; [ | discriminate ].
    apply IHvalue in Hv0.
    destruct (Json.skip_ws r3) as [ | c r4 ]; [ discriminate | ].
    destruct (Ascii.eqb c ",").
    { apply (IHmembers r4 (obj_set acc key v0) v r);
        [ apply wf_object_obj_set; assumption | exact H ]. }
    destruct (Ascii.eqb c "}"); [ | discriminate ].
    injection H as <- _. apply wf_object_obj_set; assumption.
Qed.

Lemma Json_parse_wf (text : string) (v : jsval) :
  Json.parse text = Some v -> wf_json v = true.
Proof.
  unfold Json.parse.
  destruct (Json.value _ _) as [ [v0 r] | ] eqn:Hv; [ | discriminate ].
  destruct (Json.skip_ws r); [ | discriminate ].
  intros [= <-]. apply (proj1 (Json_value_wf _) _ _ _ Hv).
Qed.

Lemma JSON_parse_wf (text : string) (v : jsval) :
  JSON_parse text = Returns v -> wf_json v = true.
Proof.
  unfold JSON_parse. destruct (Json.parse text) as [v0 | ] eqn:Hp; [ | discriminate ].
  intros [= <-]. apply (Json_parse_wf text), Hp.
Qed.

Lemma try_pattern_wf (pattern : regex) (command : string) (v : jsval) :
  try_pattern pattern command = Returns (Some v) -> wf_json v = true.
Proof.
  unfold try_pattern.
  destruct (exec no_flags pattern command) as [m | ]; [ | discriminate ].
  destruct (capture (groups m) 1) as [g | ]; [ | discriminate ].
  destruct (String.eqb g ""); [ discriminate | ].
  generalize (replace no_flags (seq [star space; lit "}"; star space; REol]) "}"
                (replace no_flags (seq [RBol; star space; lit "{"; star space]) "{"
                   (trim g))).
  intros dataStr.
  destruct (JSON_parse dataStr) as [parsed | name] eqn:Hfirst.
  - unfold mbind, completion_bind, mret, completion_ret.
    destruct (Object_keys parsed) as [ks | name]; unfold try_catch.
    + intros [= <-]. apply (JSON_parse_wf dataStr), Hfirst.
    + destruct (JSON_parse (fixJsonString dataStr)) as [fixed | name'] eqn:Hsecond;
        [ | discriminate ].
      intros [= <-]. apply (JSON_parse_wf _ _ Hsecond).
  - unfold mbind, completion_bind, mret, completion_ret, try_catch.
    destruct (JSON_parse (fixJsonString dataStr)) as [fixed | name'] eqn:Hsecond;
      [ | discriminate ].
    intros [= <-]. apply (JSON_parse_wf _ _ Hsecond).
Qed.

Lemma try_patterns_wf (patterns : list regex) (command : string) (v : jsval) :
  try_patterns patterns command = Returns (Some v) -> wf_json v = true.
Proof.
  induction patterns as [ | pattern rest IH ]; [ discriminate | ].
  cbn [try_patterns].
  destruct (try_pattern pattern command) as [ [found | ] | name ] eqn:Hp;
    unfold mbind, completion_bind, mret, completion_ret.
  - intros [= <-]. apply (try_pattern_wf pattern command), Hp.
  - exact IH.
  - discriminate.
Qed.

Lemma parseCurl_data_wf (curlCommand : string) (r : Request) :
  parseCurl curlCommand = Returns r -> wf_json (data r) = true /\ params r = [].
Proof.
  intros Hr. destruct (parseCurl_returns curlCommand) as (payload & Hdata & Hp).
  rewrite Hp in Hr. injection Hr as <-. cbn [data params]. split; [ | reflexivity ].
  unfold extractDataAggressively in Hdata.
  destruct (try_patterns dataPatterns curlCommand) as [ [found | ] | name ] eqn:Hfound;
    unfold mbind, completion_bind, mret, completion_ret in Hdata.
  - injection Hdata as <-. apply (try_patterns_wf _ _ _ Hfound).
  - injection Hdata as <-.
    destruct (includes curlCommand "api.restful-api.dev/objects"); reflexivity.
  - discriminate.
Qed.

(** X14.  The payload of a parsed request is always well-formed JSON data:
    it has no [undefined] in it and no object with a repeated key.  So,
    when its numbers are finite, the generators work on a payload that
    equals its own clone. *)
Theorem parseCurl_payload_well_formed (curlCommand : string) (r : Request) :
  parseCurl curlCommand = Returns r ->
  wf_json (data r) = true
  /\ (finite_json (data r) = true -> clone_inner (data r) = data r).
Proof.
  intros Hr. destruct (parseCurl_data_wf curlCommand r Hr) as [Hwf _].
  split; [ exact Hwf | intros _; apply clone_inner_wf, Hwf ].
Qed.

Lemma parseCurl_payload_well_formed_witness :
  exists r,
    parseCurl scenario_curl = Returns r
    /\ wf_json (data r) = true
    /\ (finite_json (data r) = true -> clone_inner (data r) = data r).
Proof.
  assert (H : exists r, parseCurl scenario_curl = Returns r)
    by (vm_compute; eexists; reflexivity).
  destruct H as [r Hr]. exists r. split; [ exact Hr | ].
  apply (parseCurl_payload_well_formed scenario_curl r Hr).
Defined.

(** ** What the patterns of [parseCurl] can match *)

Section Matching.

Variable fl : flags.
Variable total : nat.

Lemma rmatch_groupless (r : regex) :
  groupless r = true ->
  forall s caps k res,
    rmatch fl total r s caps k = Some res ->
    exists s', k s' caps = Some res /\ (length s' + min_len r <= length s)%nat.
Proof.
  induction r as [ c | negated items | | | | a IHa b IHb | a IHa b IHb | greedy a IHa | n a IHa ];
    intros Hg s caps k res H; simpl in Hg.
  - simpl in H. destruct s as [ | x rest ]; [ discriminate | ].
    destruct (Ascii.eqb _ _); [ | discriminate ]. exists rest. split; [ exact H | simpl; lia ].
  - simpl in H. destruct s as [ | x rest ]; [ discriminate | ].
    destruct (set_matches _ _ _ _); [ | discriminate ].
    exists rest. split; [ exact H | simpl; lia ].
  - simpl in H. destruct (Nat.eqb _ _); [ | discriminate ].
    exists s. split; [ exact H | simpl; lia ].
  - simpl in H. destruct s; [ | discriminate ]. exists []. split; [ exact H | simpl; lia ].
  - simpl in H. exists s. split; [ exact H | simpl; lia ].
  - apply andb_prop in Hg as [Hga Hgb]. simpl in H.
    apply (IHa Hga) in H as (s1 & H1 & L1). apply (IHb Hgb) in H1 as (s2 & H2 & L2).
    exists s2. split; [ exact H2 | simpl; lia ].
  - apply andb_prop in Hg as [Hga Hgb]. simpl in H. unfold or_else in H.
    destruct (rmatch fl total a s caps k) as [p | ] eqn:Ha.
    + rewrite <- Ha in H. apply (IHa Hga) in H as (s1 & H1 & L1).
      exists s1. split; [ exact H1 | simpl; lia ].
    + apply (IHb Hgb) in H as (s1 & H1 & L1). exists s1. split; [ exact H1 | simpl; lia ].
  - simpl in H. simpl min_len.
    revert H. generalize (length s) at 1. intros fuel. revert s caps res.
    induction fuel as [ | fuel IHfuel ]; intros s caps res H.
    + exists s. split; [ exact H | lia ].
    + assert (Hagain : forall p,
                 rmatch fl total a s caps
                   (fun s' caps' =>
                      if (length s' <? length s)%nat
                      then (fix rounds (fuel : nat) (s : list ascii) (caps : captures)
                              {struct fuel} :=
                              match fuel with
                              | O => k s caps
                              | S fuel' =>
                                  let again :=
                                    rmatch fl total a s caps
                                      (fun s' caps' =>
                                         if (length s' <? length s)%nat
                                         then rounds fuel' s' caps' else None) in
                                  if greedy then or_else again (k s caps)
                                  else or_else (k s caps) again
                              end) fuel s' caps'
                      else None) = Some p ->
                 exists s', k s' caps = Some p /\ (length s' + 0 <= length s)%nat).
      { intros p Hp. apply (IHa Hg) in Hp as (s1 & H1 & L1).
        destruct (length s1 <? length s)%nat eqn:Hlt; [ | discriminate ].
        apply Nat.ltb_lt in Hlt.
        apply IHfuel in H1 as (s2 & H2 & L2). exists s2. split; [ exact H2 | lia ]. }
      cbv beta iota zeta in H. unfold or_else in H.
      destruct greedy.
      * match type of H with
        | match ?again with Some _ => _ | None => _ end = _ =>
            destruct again as [p | ] eqn:Ha
        end.
        -- injection H as <-. apply Hagain. exact Ha.
        -- exists s. split; [ exact H | lia ].
      * destruct (k s caps) as [p | ] eqn:Hk.
        -- exists s. split; [ rewrite Hk; exact H | lia ].
        -- apply Hagain, H.
  - discriminate.
Qed.

Lemma take_nonempty (s s' : list ascii) :
  (length s' + 1 <= length s)%nat ->
  string_of_list_ascii (take (length s - length s') s) <> "".
Proof.
  intros H. destruct s as [ | x s ]; [ simpl in H; lia | ].
  destruct (length (x :: s) - length s')%nat as [ | n ] eqn:Hn; [ simpl in *; lia | ].
  discriminate.
Qed.

Lemma rmatch_fills_group_1 (r : regex) :
  fills_group_1 r = true ->
  forall s caps k res,
    rmatch fl total r s caps k = Some res ->
    exists s' g, g <> "" /\ k s' (set_capture 1 g caps) = Some res.
Proof.
  induction r as [ c | negated items | | | | a IHa b IHb | a IHa b IHb | greedy a IHa | n a IHa ];
    intros Hf s caps k res H; simpl in Hf; try discriminate.
  - simpl in H. apply orb_prop in Hf as [ Hf | Hf ]; apply andb_prop in Hf as [H1 H2].
    + apply (IHa H1) in H as (s1 & g & Hg & Hb).
      apply (rmatch_groupless b H2) in Hb as (s2 & Hk & _). eauto.
    + apply (rmatch_groupless a H1) in H as (s1 & Hb & _).
      apply (IHb H2) in Hb. exact Hb.
  - destruct n as [ | [ | n ] ]; try discriminate.
    apply andb_prop in Hf as [Hg Hlen].
    assert (1 <= min_len a)%nat by (destruct (min_len a); [ discriminate | lia ]).
    simpl in H. apply (rmatch_groupless a Hg) in H as (s1 & Hk & L1).
    exists s1, (string_of_list_ascii (take (length s - length s1) s)).
    split; [ apply take_nonempty; lia | exact Hk ].
Qed.

Lemma search_fills_group_1 (r : regex) (s : list ascii) :
  fills_group_1 r = true ->
  forall idx m,
    search fl total r s idx = Some m ->
    exists g, g <> "" /\ capture (groups m) 1 = Some g.
Proof.
  intros Hf. induction s as [ | x s IH ]; intros idx m H; simpl in H.
  - destruct (rmatch fl total r [] [] _) as [ [s' caps'] | ] eqn:Hm; [ | discriminate ].
    apply (rmatch_fills_group_1 r Hf) in Hm as (s2 & g & Hg & [= <- <-]).
    injection H as <-. exists g. split; [ exact Hg | reflexivity ].
  - destruct (rmatch fl total r (x :: s) [] _) as [ [s' caps'] | ] eqn:Hm.
    + apply (rmatch_fills_group_1 r Hf) in Hm as (s2 & g & Hg & [= <- <-]).
      injection H as <-. exists g. split; [ exact Hg | reflexivity ].
    + apply (IH _ _ H).
Qed.

End Matching.

Lemma extract_url_nonempty (patterns : list regex) (curlCommand u : string) :
  Forall (fun pattern => fills_group_1 pattern = true) patterns ->
  extract_url patterns curlCommand = Some u -> u <> "".
Proof.
  induction 1 as [ | pattern rest Hf _ IH ]; [ discriminate | ].
  cbn [extract_url]. destruct (exec no_flags pattern curlCommand) as [m | ] eqn:Hm;
    [ | exact IH ].
  unfold exec in Hm. apply (search_fills_group_1 _ _ _ _ Hf) in Hm as (g & Hg & ->).
  intros [= <-]. exact Hg.
Qed.

Lemma extract_url_none_inv (patterns : list regex) (curlCommand : string) :
  extract_url patterns curlCommand = None ->
  Forall (fun pattern => exec no_flags pattern curlCommand = None) patterns.
Proof.
  induction patterns as [ | pattern rest IH ]; [ constructor | ].
  cbn [extract_url]. destruct (exec no_flags pattern curlCommand) eqn:Hm; [ discriminate | ].
  intros H. constructor; [ exact Hm | apply IH, H ].
Qed.

Lemma urlPatterns_fill_group_1 :
  Forall (fun pattern => fills_group_1 pattern = true) urlPatterns.
Proof. unfold urlPatterns. repeat constructor. Qed.

Lemma runTests_summary (rand : nat -> Q) (net : nat -> Request -> NetEvent)
    (before : list Verdict) (curlCommand : string) (expectedStatus : Z) (r : Run) :
  runTests rand net before curlCommand expectedStatus = Returns r ->
  exists p,
    parseCurl curlCommand = Returns p
    /\ (summary r = None <-> url p = "").
Proof.
  unfold runTests. destruct (parseCurl curlCommand) as [p | name]; [ | discriminate ].
  unfold mbind, completion_bind, mret, completion_ret.
  destruct (String.eqb (url p) "") eqn:E; intros [= <-]; exists p;
    (split; [ reflexivity | ]); cbn [summary].
  - apply String.eqb_eq in E. split; auto.
  - apply String.eqb_neq in E. split; [ discriminate | contradiction ].
Qed.

(** X13.  A run is given up before any test case is generated exactly when none
    of the five URL patterns matches the text: a URL that a pattern
    extracts is never empty. *)
Theorem run_aborted_iff_no_pattern_matches (rand : nat -> Q)
    (net : nat -> Request -> NetEvent) (before : list Verdict) (curlCommand : string)
    (expectedStatus : Z) (r : Run) :
  runTests rand net before curlCommand expectedStatus = Returns r ->
  aborted r <-> Forall (fun pattern => exec no_flags pattern curlCommand = None) urlPatterns.
Proof.
  intros Hrun. destruct (runTests_summary _ _ _ _ _ r Hrun) as (p & Hp & Hiff).
  unfold aborted. rewrite Hiff. clear Hiff.
  destruct (parseCurl_returns curlCommand) as (payload & _ & Hp').
  rewrite Hp' in Hp. injection Hp as <-.
  change (default "" (extract_url urlPatterns curlCommand) = ""
          <-> Forall (fun pattern => exec no_flags pattern curlCommand = None) urlPatterns).
  destruct (extract_url urlPatterns curlCommand) as [u | ] eqn:Hu.
  - pose proof (extract_url_nonempty _ _ _ urlPatterns_fill_group_1 Hu) as Hne.
    split; [ intros E; contradiction | ].
    intros Hnone. rewrite (extract_url_none _ _ Hnone) in Hu. discriminate.
  - split; [ intros _; apply extract_url_none_inv, Hu | reflexivity ].
Qed.

Lemma run_aborted_iff_no_pattern_matches_witness :
  exists r,
    runTests (fun _ => 1%Q) always_timeout [] plain_get 201 = Returns r
    /\ (aborted r
        <-> Forall (fun pattern => exec no_flags pattern plain_get = None) urlPatterns).
Proof.
  assert (H : exists r, runTests (fun _ => 1%Q) always_timeout [] plain_get 201 = Returns r)
    by (vm_compute; eexists; reflexivity).
  destruct H as [r Hr]. exists r. split; [ exact Hr | ].
  apply (run_aborted_iff_no_pattern_matches _ _ _ _ _ r Hr).
Defined.

(** ** A text without a data flag *)

Lemma includes_eq (s sub : string) :
  includes s sub
  = if String.prefix sub s then true
    else match s with
         | EmptyString => false
         | String _ rest => includes rest sub
         end.
Proof. destruct s; reflexivity. Qed.

Lemma prefix_app_true (l rest : list ascii) :
  String.prefix (string_of_list_ascii l) (string_of_list_ascii (l ++ rest)) = true.
Proof.
  induction l as [ | c l IH ]; simpl; [ destruct (string_of_list_ascii rest); reflexivity | ].
  destruct (ascii_dec c c); [ exact IH | contradiction ].
Qed.

Lemma includes_at (pre l rest : list ascii) :
  includes (string_of_list_ascii (pre ++ l ++ rest)) (string_of_list_ascii l) = true.
Proof.
  induction pre as [ | x pre IH ]; rewrite includes_eq.
  - simpl app. rewrite prefix_app_true. reflexivity.
  - destruct (String.prefix _ _); [ reflexivity | exact IH ].
Qed.

Lemma rmatch_lit_chars (total : nat) (l : list ascii) :
  l <> [] ->
  forall s caps k res,
    rmatch no_flags total (lit_chars l) s caps k = Some res ->
    exists rest, s = l ++ rest.
Proof.
  induction l as [ | c l IH ]; [ congruence | ]. intros _ s caps k res H.
  destruct l as [ | c2 l ].
  - simpl in H. destruct s as [ | x rest ]; [ discriminate | ].
    unfold canonicalize, no_flags in H. cbv beta iota delta [ignoreCase] in H.
    destruct (Ascii.eqb c x) eqn:E; [ | discriminate ].
    apply Ascii.eqb_eq in E. subst x. exists rest. reflexivity.
  - change (lit_chars (c :: c2 :: l)) with (RSeq (RChar c) (lit_chars (c2 :: l))) in H.
    remember (lit_chars (c2 :: l)) as tail_pattern eqn:Htail.
    simpl in H. destruct s as [ | x rest ]; [ discriminate | ].
    unfold canonicalize, no_flags in H. cbv beta iota delta [ignoreCase] in H.
    destruct (Ascii.eqb c x) eqn:E; [ | discriminate ].
    apply Ascii.eqb_eq in E. subst x tail_pattern.
    apply IH in H as [rest' ->]; [ | discriminate ].
    exists rest'. reflexivity.
Qed.

Lemma search_lit_head (total : nat) (l : list ascii) (r : regex) :
  l <> [] ->
  forall s idx m,
    search no_flags total (RSeq (lit_chars l) r) s idx = Some m ->
    exists pre rest, s = pre ++ l ++ rest.
Proof.
  intros Hl. induction s as [ | x s IH ]; intros idx m H.
  - change (search no_flags total (RSeq (lit_chars l) r) [] idx)
      with (match rmatch no_flags total (lit_chars l) [] []
                    (fun s' caps' =>
                       rmatch no_flags total r s' caps' (fun s2 caps2 => Some (s2, caps2)))
            with
            | Some (s', caps') =>
                Some (mkMatch idx (string_of_list_ascii (take (length (@nil ascii) - length s') []))
                              caps' s')
            | None => None
            end) in H.
    destruct (rmatch no_flags total (lit_chars l) [] [] _) as [ [s' caps'] | ] eqn:Hm;
      [ | discriminate ].
    apply (rmatch_lit_chars total l Hl) in Hm as [rest Hrest].
    exists [], rest. exact Hrest.
  - change (search no_flags total (RSeq (lit_chars l) r) (x :: s) idx)
      with (match rmatch no_flags total (lit_chars l) (x :: s) []
                    (fun s' caps' =>
                       rmatch no_flags total r s' caps' (fun s2 caps2 => Some (s2, caps2)))
            with
            | Some (s', caps') =>
                Some (mkMatch idx
                              (string_of_list_ascii (take (length (x :: s) - length s') (x :: s)))
                              caps' s')
            | None => search no_flags total (RSeq (lit_chars l) r) s (S idx)
            end) in H.
    destruct (rmatch no_flags total (lit_chars l) (x :: s) [] _) as [ [s' caps'] | ] eqn:Hm.
    + apply (rmatch_lit_chars total l Hl) in Hm as [rest Hrest].
      exists [], rest. exact Hrest.
    + apply IH in H as (pre & rest & ->). exists (x :: pre), rest. reflexivity.
Qed.

Lemma data_pattern_needs_flag (flag quote command : string) (m : MatchResult) :
  flag <> "" ->
  exec no_flags (data_pattern flag quote) command = Some m ->
  exists pre rest,
    command = string_of_list_ascii (pre ++ list_ascii_of_string flag ++ rest).
Proof.
  intros Hflag Hm. unfold exec in Hm.
  change (data_pattern flag quote)
    with (RSeq (lit_chars (list_ascii_of_string flag))
               (seq [plus space; lit quote;
                     RGroup 1 (seq [plus (none_of quote);
                                    lazy_star (seq [lit quote; star (none_of quote);
                                                    lit quote; star (none_of quote)])]);
                     lit quote])) in Hm.
  apply search_lit_head in Hm as (pre & rest & Hs).
  - exists pre, rest. rewrite <- Hs. symmetry. apply string_of_list_ascii_of_string.
  - destruct flag; [ congruence | discriminate ].
Qed.

Lemma data_patterns_need_flag (command : string) :
  includes command "-d" = false ->
  Forall (fun pattern => exec no_flags pattern command = None) dataPatterns.
Proof.
  intros Hnone.
  assert (Hshort : forall quote, exec no_flags (data_pattern "-d" quote) command = None).
  { intros quote. destruct (exec _ _ _) as [m | ] eqn:Hm; [ | reflexivity ].
    apply data_pattern_needs_flag in Hm as (pre & rest & Hc); [ | discriminate ].
    assert (Hin : includes command "-d" = true)
      by (rewrite Hc; apply (includes_at pre (list_ascii_of_string "-d") rest)).
    congruence. }
  assert (Hlong : forall quote, exec no_flags (data_pattern "--data" quote) command = None).
  { intros quote. destruct (exec _ _ _) as [m | ] eqn:Hm; [ | reflexivity ].
    apply data_pattern_needs_flag in Hm as (pre & rest & Hc); [ | discriminate ].
    assert (Hin : includes command "-d" = true).
    { rewrite Hc.
      replace (pre ++ list_ascii_of_string "--data" ++ rest)
        with ((pre ++ ["-"%char]) ++ list_ascii_of_string "-d"
              ++ (list_ascii_of_string "ata" ++ rest))
        by (rewrite <- app_assoc; reflexivity).
      apply (includes_at (pre ++ ["-"%char]) (list_ascii_of_string "-d")). }
    congruence. }
  unfold dataPatterns. repeat constructor; auto.
Qed.

Lemma try_patterns_none (patterns : list regex) (command : string) :
  Forall (fun pattern => exec no_flags pattern command = None) patterns ->
  try_patterns patterns command = Returns None.
Proof.
  induction 1 as [ | pattern rest Hnone _ IH ]; [ reflexivity | ].
  change (try_patterns (pattern :: rest) command)
    with (found ← try_pattern pattern command;
          match found with
          | Some v => mret (Some v)
          | None => try_patterns rest command
          end).
  unfold try_pattern. rewrite Hnone. exact IH.
Qed.

(** X15.  A text in which [-d] does not occur has no payload: the parsed request
    carries [null].  The one exception is a text that mentions the sample
    host: it gets the sample payload, and with it a method other than
    GET. *)
Theorem no_data_flag_payload (curlCommand : string) :
  includes curlCommand "-d" = false ->
  exists r,
    parseCurl curlCommand = Returns r
    /\ data r = (if includes curlCommand sample_host then reconstructMacBookJSON else JNull)
    /\ (includes curlCommand sample_host = true -> method r <> "GET").
Proof.
  intros Hnone.
  assert (Hdata : extractDataAggressively curlCommand
                  = Returns (if includes curlCommand sample_host
                             then reconstructMacBookJSON else JNull)).
  { unfold extractDataAggressively.
    rewrite (try_patterns_none _ _ (data_patterns_need_flag _ Hnone)). reflexivity. }
  unfold parseCurl. rewrite Hdata.
  eexists. split; [ reflexivity | ]. split; [ reflexivity | ].
  intros Hsample. cbv beta iota zeta. unfold method. rewrite Hsample.
  unfold promote. change (truthy reconstructMacBookJSON) with true.
  destruct (String.eqb (default "GET" (method_flag curlCommand)) "GET") eqn:E;
    [ discriminate | ].
  apply String.eqb_neq in E. exact E.
Qed.

Lemma no_data_flag_payload_witness :
  exists r,
    parseCurl sample_listing = Returns r
    /\ data r = (if includes sample_listing sample_host then reconstructMacBookJSON
                 else JNull)
    /\ (includes sample_listing sample_host = true -> method r <> "GET").
Proof.
  apply (no_data_flag_payload sample_listing). reflexivity.
Defined.

(** ** The method of a parsed request *)

Lemma upper_char_idempotent (c : ascii) : upper_char (upper_char c) = upper_char c.
Proof. destruct c as [[] [] [] [] [] [] [] []]; reflexivity. Qed.

Lemma toUpperCase_idempotent (s : string) : toUpperCase (toUpperCase s) = toUpperCase s.
Proof.
  unfold toUpperCase. rewrite list_ascii_of_string_of_list_ascii, map_map.
  f_equal. apply map_ext. intros c. apply upper_char_idempotent.
Qed.

(** X16.  The method of a parsed request has no lower-case letter in it, however
    the method flag was written. *)
Theorem parsed_method_is_upper_case (curlCommand : string) (r : Request) :
  parseCurl curlCommand = Returns r ->
  toUpperCase (method r) = method r.
Proof.
  intros Hr. destruct (parseCurl_returns curlCommand) as (payload & _ & Hp).
  rewrite Hp in Hr. injection Hr as <-.
  change (toUpperCase (promote payload (default "GET" (method_flag curlCommand)))
          = promote payload (default "GET" (method_flag curlCommand))).
  unfold promote. destruct (truthy payload && _); [ reflexivity | ].
  unfold method_flag. destruct (exec _ _ _) as [m | ]; [ | reflexivity ].
  apply toUpperCase_idempotent.
Qed.

Lemma parsed_method_is_upper_case_witness :
  exists r,
    parseCurl "curl -X patch http://h.example/x" = Returns r
    /\ toUpperCase (method r) = method r.
Proof.
  assert (H : exists r, parseCurl "curl -X patch http://h.example/x" = Returns r)
    by (vm_compute; eexists; reflexivity).
  destruct H as [r Hr]. exists r. split; [ exact Hr | ].
  apply (parsed_method_is_upper_case _ r Hr).
Defined.

(** ** The Header cases on the wire *)



(** ** The command line *)

Lemma status_of_nonzero (value : option string) : Cli.status_of value <> 0.
Proof.
  unfold Cli.status_of. destruct (value ≫= Cli.parseInt) as [n | ]; [ | discriminate ].
  destruct (n =? 0) eqn:E; [ discriminate | apply Z.eqb_neq, E ].
Qed.

Lemma parse_loop_status (n : nat) :
  forall args options,
    (length args <= n)%nat -> Cli.status options <> 0 ->
    Cli.status (Cli.parse_loop args options) <> 0.
Proof.
  induction n as [ | n IH ]; intros args options Hlen Hs;
    destruct args as [ | arg rest ]; try exact Hs; simpl in Hlen; [ lia | ].
  cbn [Cli.parse_loop].
  destruct (String.eqb arg "--help" || String.eqb arg "-h");
    [ apply IH; [ lia | exact Hs ] | ].
  destruct (String.eqb arg "--curl" || String.eqb arg "-c").
  { destruct rest as [ | value rest' ]; [ exact Hs | ].
    apply IH; [ simpl in Hlen; lia | exact Hs ]. }
  destruct (String.eqb arg "--status").
  { destruct rest as [ | value rest' ]; [ apply status_of_nonzero | ].
    apply IH; [ simpl in Hlen; lia | apply status_of_nonzero ]. }
  apply IH; [ lia | exact Hs ].
Qed.

Lemma parse_loop_status_default (n : nat) :
  forall args options,
    (length args <= n)%nat -> ~ In "--status" args ->
    Cli.status (Cli.parse_loop args options) = Cli.status options.
Proof.
  induction n as [ | n IH ]; intros args options Hlen Hnot;
    destruct args as [ | arg rest ]; try reflexivity; simpl in Hlen; [ lia | ].
  cbn [Cli.parse_loop].
  assert (Hrest : ~ In "--status" rest) by (intros H; apply Hnot; right; exact H).
  destruct (String.eqb arg "--help" || String.eqb arg "-h");
    [ rewrite IH; [ reflexivity | lia | exact Hrest ] | ].
  destruct (String.eqb arg "--curl" || String.eqb arg "-c").
  { destruct rest as [ | value rest' ]; [ reflexivity | ].
    rewrite IH; [ reflexivity | simpl in Hlen; lia | ].
    intros H; apply Hrest; right; exact H. }
  destruct (String.eqb arg "--status") eqn:E.
  { apply String.eqb_eq in E. subst arg. destruct Hnot. left. reflexivity. }
  apply IH; [ lia | exact Hrest ].
Qed.

Lemma parse_loop_curl (n : nat) :
  forall args options command,
    (length args <= n)%nat ->
    Cli.curl (Cli.parse_loop args options) = Some command ->
    Cli.curl options = Some command
    \/ exists pre flag post, args = pre ++ flag :: command :: post /\ curl_flag flag.
Proof.
  induction n as [ | n IH ]; intros args options command Hlen Hc;
    destruct args as [ | arg rest ]; try (left; exact Hc); simpl in Hlen; [ lia | ].
  cbn [Cli.parse_loop] in Hc.
  assert (Hshift : forall skipped tail,
             (exists pre flag post, tail = pre ++ flag :: command :: post /\ curl_flag flag) ->
             exists pre flag post,
               skipped ++ tail = pre ++ flag :: command :: post /\ curl_flag flag).
  { intros skipped tail (pre & flag & post & -> & Hflag).
    exists (skipped ++ pre), flag, post. rewrite <- app_assoc. split; [ reflexivity | exact Hflag ]. }
  destruct (String.eqb arg "--help" || String.eqb arg "-h").
  { apply IH in Hc as [ Hc | Hc ]; [ left; exact Hc | | lia ].
    right. apply (Hshift [arg] rest Hc). }
  destruct (String.eqb arg "--curl" || String.eqb arg "-c") eqn:Hflag.
  { destruct rest as [ | value rest' ]; [ discriminate | ].
    apply IH in Hc as [ Hc | Hc ]; [ | | simpl in Hlen; lia ].
    - injection Hc as ->. right. exists [], arg, rest'. split; [ reflexivity | ].
      apply orb_prop in Hflag as [ E | E ]; apply String.eqb_eq in E; [ left | right ]; exact E.
    - right. apply (Hshift [arg; value] rest' Hc). }
  destruct (String.eqb arg "--status").
  { destruct rest as [ | value rest' ]; [ left; exact Hc | ].
    apply IH in Hc as [ Hc | Hc ]; [ left; exact Hc | | simpl in Hlen; lia ].
    right. apply (Hshift [arg; value] rest' Hc). }
  apply IH in Hc as [ Hc | Hc ]; [ left; exact Hc | | lia ].
  right. apply (Hshift [arg] rest Hc).
Qed.

(** X19.  When [main] starts the tests from the command line, the command is not
    empty and is the argument that follows a [--curl] or [-c]; the expected
    status is never 0, and it is 201 when no argument is [--status]. *)
Theorem main_runs_the_given_command (argv : list string) (command : string) (expected : Z) :
  Cli.main argv = Cli.RunTests command expected ->
  command <> ""
  /\ (exists pre flag post, argv = pre ++ flag :: command :: post /\ curl_flag flag)
  /\ expected <> 0
  /\ (~ In "--status" argv -> expected = 201).
Proof.
  unfold Cli.main, Cli.parseArguments.
  destruct (Cli.help _); [ discriminate | ].
  destruct (Cli.interactive _); [ discriminate | ].
  destruct (Cli.curl _) as [c | ] eqn:Hc; [ | discriminate ].
  destruct (String.eqb c "") eqn:E; [ discriminate | ].
  intros [= -> <-]. apply String.eqb_neq in E.
  split; [ exact E | ]. split.
  - apply (parse_loop_curl (length argv)) in Hc as [ Hc | Hc ];
      [ discriminate | exact Hc | lia ].
  - split.
    + apply (parse_loop_status (length argv)); [ lia | discriminate ].
    + intros Hnot. apply (parse_loop_status_default (length argv)); [ lia | exact Hnot ].
Qed.

Lemma main_runs_the_given_command_witness :
  plain_get <> ""
  /\ (exists pre flag post,
        ["--status"; "0"; "-c"; plain_get] = pre ++ flag :: plain_get :: post
        /\ curl_flag flag)
  /\ 201 <> 0
  /\ (~ In "--status" ["--status"; "0"; "-c"; plain_get] -> 201 = 201).
Proof.
  apply (main_runs_the_given_command ["--status"; "0"; "-c"; plain_get] plain_get 201).
  reflexivity.
Defined.

Lemma getMultilineInput_blanks (blanks input : list string) :
  Forall (fun line => line = "") blanks ->
  Cli.getMultilineInput (blanks ++ input) [] = Cli.getMultilineInput input [].
Proof.
  induction 1 as [ | line blanks -> _ IH ]; [ reflexivity | exact IH ].
Qed.

Lemma getMultilineInput_block (block : list string) :
  forall input lines,
    Forall (fun line => line <> "") block ->
    Cli.getMultilineInput (block ++ input) lines = Cli.getMultilineInput input (lines ++ block).
Proof.
  induction block as [ | line block IH ]; intros input lines Hblock.
  - rewrite app_nil_r. reflexivity.
  - inversion Hblock as [ | ? ? Hline Hrest ]; subst.
    apply String.eqb_neq in Hline.
    change (Cli.getMultilineInput ((line :: block) ++ input) lines)
      with (if String.eqb line "" && (0 <? length lines)%nat
            then Some (join Cli.newline lines, block ++ input)
            else if negb (String.eqb line "")
                 then Cli.getMultilineInput (block ++ input) (lines ++ [line])
                 else Cli.getMultilineInput (block ++ input) lines).
    rewrite Hline. cbn [andb negb]. rewrite (IH input (lines ++ [line]) Hrest).
    rewrite <- app_assoc. reflexivity.
Qed.

(** X20.  In interactive mode the command is the first block of non-empty lines,
    joined by line feeds: empty lines before it are skipped, and the first
    empty line after it ends it, whatever follows.  The tests are then run
    on it with the expected status 201, unless it is all white space. *)
Theorem interactive_command_is_first_block (blanks block rest : list string) :
  Forall (fun line => line = "") blanks ->
  Forall (fun line => line <> "") block ->
  block <> [] ->
  Cli.getMultilineInput (blanks ++ block ++ "" :: rest) [] = Some (join Cli.newline block, rest)
  /\ Cli.runInteractiveMode (blanks ++ block ++ "" :: rest)
     = if String.eqb (trim (join Cli.newline block)) "" then Cli.ExitWithoutCommand
       else Cli.RunTestsOn (join Cli.newline block) 201.
Proof.
  intros Hblanks Hblock Hne.
  assert (H : Cli.getMultilineInput (blanks ++ block ++ "" :: rest) []
              = Some (join Cli.newline block, rest)).
  { rewrite (getMultilineInput_blanks _ _ Hblanks), (getMultilineInput_block _ _ _ Hblock).
    destruct block as [ | line block ]; [ congruence | reflexivity ]. }
  split; [ exact H | ]. unfold Cli.runInteractiveMode. rewrite H. reflexivity.
Qed.

Lemma interactive_command_is_first_block_witness :
  Cli.getMultilineInput ([""] ++ ["curl -X POST \"; "http://h.example/x"] ++ "" :: ["-d '{}'"]) []
  = Some (join Cli.newline ["curl -X POST \"; "http://h.example/x"], ["-d '{}'"])
  /\ Cli.runInteractiveMode
       ([""] ++ ["curl -X POST \"; "http://h.example/x"] ++ "" :: ["-d '{}'"])
     = if String.eqb (trim (join Cli.newline ["curl -X POST \"; "http://h.example/x"])) ""
       then Cli.ExitWithoutCommand
       else Cli.RunTestsOn (join Cli.newline ["curl -X POST \"; "http://h.example/x"]) 201.
Proof.
  apply (interactive_command_is_first_block
           [""] ["curl -X POST \"; "http://h.example/x"] ["-d '{}'"]).
  - repeat constructor.
  - repeat constructor; discriminate.
  - discriminate.
Defined.

(** ** From the text to the first case *)

Lemma parseCurl_clone (curlCommand : string) (p : Request) :
  parseCurl curlCommand = Returns p -> clone_request p = p.
Proof.
  intros Hp. destruct (parseCurl_data_wf curlCommand p Hp) as [Hwf Hparams].
  destruct p as [m u h payload ps]. cbn [data params] in Hwf, Hparams. subst ps.
  unfold clone_request. cbn [method url headers data params].
  rewrite (clone_inner_wf payload Hwf). reflexivity.
Qed.

(** X17.  The Positive case sends the request as it was parsed, when the
    numbers of its payload are finite: the two clones between [parseCurl]
    and the first test case change nothing then. *)
Theorem positive_case_sends_parsed_request (rand : nat -> Q) (curlCommand : string)
    (expected : Z) (p : Request) :
  parseCurl curlCommand = Returns p ->
  finite_json (data p) = true ->
  exists rest,
    generateTestCases rand p expected
    = mkTestCase "Positive" "Valid input data" p expected
                 (Z_to_string expected +:+ " " +:+ getStatusText expected) :: rest.
Proof.
  intros Hp _. destruct (generateTestCases_split rand p expected) as (cases & -> & _).
  rewrite !(parseCurl_clone curlCommand p Hp). eexists. reflexivity.
Qed.

Lemma positive_case_sends_parsed_request_witness :
  exists p,
    parseCurl scenario_curl = Returns p
    /\ exists rest,
        generateTestCases (fun _ => 1%Q) p 201
        = mkTestCase "Positive" "Valid input data" p 201
                     (Z_to_string 201 +:+ " " +:+ getStatusText 201) :: rest.
Proof.
  exists (mkRequest "POST" "http://localhost:3000/items" json_content_type
                    (JObj scenario_payload) []).
  split; [ exact parse_scenario_curl | ].
  apply (positive_case_sends_parsed_request (fun _ => 1%Q) scenario_curl 201 _
           parse_scenario_curl).
  reflexivity.
Defined.

(** ** What a pass means *)

Lemma generated_cases_classified (rand : nat -> Q) (p : Request) (s : Z) :
  Forall (fun tc => (type tc = "Positive" /\ expectedStatus tc = s)
                    \/ (type tc <> "Positive"
                        /\ forall actual e, isExpectedResult actual e (type tc)
                                            = (400 <=? actual)))
         (generateTestCases rand p s).
Proof.
  destruct (generateTestCases_split rand p s) as (cases & -> & Hty & _).
  constructor; [ left; split; reflexivity | ].
  apply Forall_app; split.
  - eapply Forall_impl; [ exact Hty | ]. intros tc [ H | H ]; simpl in *; right.
    + split; [ intros E; rewrite E in H; discriminate | ].
      intros; apply isExpectedResult_rejection, H.
    + rewrite H. split; [ discriminate | reflexivity ].
  - destruct (0 <? size _)%nat; [ | constructor ].
    eapply Forall_impl; [ apply header_types | ]. intros tc H; simpl in H. rewrite H.
    right. split; [ discriminate | reflexivity ].
Qed.

Lemma run_recorded (net : nat -> Request -> NetEvent) (tcs : list TestCase) :
  forall st : RunState,
  exists verdicts,
    results (fold_left (run_one net) tcs st) = results st ++ verdicts
    /\ map testCase verdicts = tcs
    /\ Forall recorded verdicts.
Proof.
  induction tcs as [ | tc tcs IH ]; intros st.
  - exists []. simpl. rewrite app_nil_r. repeat split. constructor.
  - destruct (IH (run_one net st tc)) as (vs & Hres & Hmap & Hrec).
    cbn [fold_left]. rewrite Hres. clear Hres IH.
    unfold run_one.
    destruct (executeRequest net (wire st) (request tc)) as [response wire'].
    cbn [results].
    eexists (_ :: vs). rewrite <- app_assoc. split; [ reflexivity | ].
    cbn [map testCase]. rewrite Hmap. split; [ reflexivity | ].
    constructor; [ | exact Hrec ]. repeat split.
Qed.

(** X21.  What a pass in the results of a run means.  The result of the
    Positive case passes exactly when there was a response whose status is
    the caller's expected status, 200 or 201; the result of any other case
    passes exactly when the status is 400 or more. *)
Theorem run_pass_means (rand : nat -> Q) (net : nat -> Request -> NetEvent)
    (before : list Verdict) (curlCommand : string) (expectedStatus : Z) (r : Run) :
  runTests rand net before curlCommand expectedStatus = Returns r ->
  exists verdicts,
    results (final r) = before ++ verdicts
    /\ Forall (fun v =>
                 passed v = true
                 <-> if String.eqb (type (testCase v)) "Positive"
                     then responseCode v <> 0
                          /\ (responseCode v = expectedStatus \/ responseCode v = 200
                              \/ responseCode v = 201)
                     else 400 <= responseCode v) verdicts.
Proof.
  unfold runTests. destruct (parseCurl curlCommand) as [p | name]; [ | discriminate ].
  unfold mbind, completion_bind, mret, completion_ret.
  destruct (String.eqb (url p) ""); intros [= <-]; cbn [final].
  { exists []. rewrite app_nil_r. split; [ reflexivity | constructor ]. }
  destruct (run_recorded net (generateTestCases rand p expectedStatus)
              (mkRunState before 0 0 [])) as (vs & Hres & Hmap & Hrec).
  exists vs. split; [ exact Hres | ].
  pose proof (generated_cases_classified rand p expectedStatus) as Hcls.
  rewrite <- Hmap in Hcls.
  rewrite Forall_forall in Hcls. rewrite Forall_forall in Hrec.
  apply Forall_forall. intros v Hv.
  destruct (Hrec v Hv) as (_ & Hexp & _ & Hpass).
  assert (Htc : testCase v ∈ map testCase vs)
    by (rewrite map_fmap; apply list_elem_of_fmap_2, Hv).
  specialize (Hcls _ Htc). rewrite Hpass.
  destruct Hcls as [ [Hty Hs] | [Hty Hge] ].
  - rewrite Hty, Hexp, Hs. cbn [String.eqb Ascii.eqb Bool.eqb]. unfold isExpectedResult.
    cbn [String.eqb Ascii.eqb Bool.eqb].
    destruct (responseCode v =? 0) eqn:E0; [ apply Z.eqb_eq in E0 | apply Z.eqb_neq in E0 ].
    + split; [ discriminate | intros [H _]; contradiction ].
    + rewrite !orb_true_iff, !Z.eqb_eq. tauto.
  - rewrite Hge. apply String.eqb_neq in Hty. rewrite Hty.
    destruct (responseCode v =? 0) eqn:E0; [ apply Z.eqb_eq in E0 | apply Z.eqb_neq in E0 ].
    + rewrite E0. split; [ discriminate | lia ].
    + apply Z.leb_le.
Qed.

Lemma run_pass_means_witness :
  exists r,
    runTests (fun _ => 1%Q) always_ok [] plain_get 201 = Returns r
    /\ exists verdicts,
        results (final r) = [] ++ verdicts
        /\ Forall (fun v =>
                     passed v = true
                     <-> if String.eqb (type (testCase v)) "Positive"
                         then responseCode v <> 0
                              /\ (responseCode v = 201 \/ responseCode v = 200
                                  \/ responseCode v = 201)
                         else 400 <= responseCode v) verdicts.
Proof.
  assert (H : exists r, runTests (fun _ => 1%Q) always_ok [] plain_get 201 = Returns r)
    by (vm_compute; eexists; reflexivity).
  destruct H as [r Hr]. exists r. split; [ exact Hr | ].
  apply (run_pass_means _ _ _ _ _ r Hr).
Defined.

(** ** A payload that cannot be sent *)



(** ** The security assessment *)

Lemma prefix_app_left (p a b : string) :
  String.prefix p a = true -> String.prefix p (a +:+ b) = true.
Proof.
  revert a. induction p as [ | c p IH ]; intros a H;
    [ destruct (a +:+ b); reflexivity | ].
  destruct a as [ | c' a ]; [ discriminate | ]. simpl in *.
  destruct (ascii_dec c c'); [ apply IH, H | discriminate ].
Qed.

Lemma security_tags (b : Request) :
  Forall (fun tc => String.prefix "Security" (type tc) = true) (generateSecurityTests b).
Proof.
  unfold generateSecurityTests. destruct (payload_object b) as [d | ]; [ | constructor ].
  by_visits.
Qed.

Lemma filter_length_le {A} (f : A -> bool) (l : list A) :
  (length (List.filter f l) <= length l)%nat.
Proof. induction l as [ | x l IH ]; simpl; [ lia | destruct (f x); simpl; lia ]. Qed.

Lemma filter_all {A} (f : A -> bool) (l : list A) :
  Forall (fun x => f x = true) l -> List.filter f l = l.
Proof.
  induction 1 as [ | x l Hx _ IH ]; simpl; [ reflexivity | ]. rewrite Hx, IH. reflexivity.
Qed.

Lemma security_results_count (vs : list Verdict) :
  Forall recorded vs ->
  (length (List.filter (fun tc => String.prefix "Security" (type tc)) (map testCase vs))
   <= length (securityTests vs))%nat.
Proof.
  unfold securityTests. induction 1 as [ | v vs (Hname & _) _ IH ]; simpl; [ lia | ].
  destruct (String.prefix "Security" (type (testCase v))) eqn:Hp.
  - rewrite includes_eq, Hname, (prefix_app_left _ _ _ Hp). simpl. lia.
  - destruct (includes (testName v) "Security"); simpl; lia.
Qed.

Lemma runTests_completed (rand : nat -> Q) (net : nat -> Request -> NetEvent)
    (before : list Verdict) (curlCommand : string) (expectedStatus : Z) (r : Run) :
  runTests rand net before curlCommand expectedStatus = Returns r ->
  ~ aborted r ->
  parseCurl curlCommand = Returns (parsed r)
  /\ final r = fold_left (run_one net) (generateTestCases rand (parsed r) expectedStatus)
                         (mkRunState before 0 0 []).
Proof.
  unfold runTests, aborted.
  destruct (parseCurl curlCommand) as [p | name]; [ | discriminate ].
  unfold mbind, completion_bind, mret, completion_ret.
  destruct (String.eqb (url p) ""); intros [= <-] Hs.
  - destruct (Hs eq_refl).
  - split; reflexivity.
Qed.

(** X23.  The security assessment of a new tester, for a payload that is a
    well-formed plain object: the number of security tests it reports is
    at least six for each string of the payload (every Security case is
    counted) and at most the total of the run. *)
Theorem security_assessment_bounds (rand : nat -> Q) (net : nat -> Request -> NetEvent)
    (curlCommand : string) (expectedStatus : Z) (r : Run) (d : jsobject) :
  runTests rand net [] curlCommand expectedStatus = Returns r ->
  ~ aborted r ->
  data (parsed r) = JObj d ->
  (6 * count_nodes typeof_string d <= length (securityTests (results (final r)))
   /\ length (securityTests (results (final r)))
      <= passCount (final r) + failCount (final r))%nat.
Proof.
  intros Hrun Hdone Hd.
  destruct (runTests_completed _ _ _ _ _ r Hrun Hdone) as [Hp ->].
  set (p := parsed r) in *. set (tcs := generateTestCases rand p expectedStatus).
  destruct (run_recorded net tcs (mkRunState [] 0 0 [])) as (vs & Hres & Hmap & Hrec).
  destruct (run_counts net tcs (mkRunState [] 0 0 [])) as (Hlen & Hsum).
  rewrite Hsum, Hres. rewrite Hres in Hlen.
  change (results (mkRunState [] 0 0 []) ++ vs) with vs in *.
  change (length (results (mkRunState [] 0 0 [])) + length tcs)%nat
    with (length tcs) in Hlen.
  change (passCount (mkRunState [] 0 0 []) + failCount (mkRunState [] 0 0 [])
          + length tcs)%nat with (length tcs).
  split.
  - etransitivity; [ | apply (security_results_count vs Hrec) ].
    rewrite Hmap. unfold tcs, generateTestCases.
    rewrite (parseCurl_clone curlCommand p Hp), Hd.
    change (truthy (JObj d) && is_plain_object (JObj d)) with true. cbv iota.
    rewrite !List.filter_app, !length_app.
    rewrite (filter_all _ _ (security_tags p)).
    unfold generateSecurityTests, payload_object. rewrite Hd.
    rewrite security_count. unfold count_nodes. lia.
  - rewrite <- Hlen. apply filter_length_le.
Qed.

Lemma security_assessment_bounds_witness :
  exists r,
    runTests (fun _ => 1%Q) always_ok [] scenario_curl 201 = Returns r
    /\ (6 * count_nodes typeof_string scenario_payload
        <= length (securityTests (results (final r)))
        /\ length (securityTests (results (final r)))
           <= passCount (final r) + failCount (final r))%nat.
Proof.
  assert (H : exists r, runTests (fun _ => 1%Q) always_ok [] scenario_curl 201 = Returns r)
    by (vm_compute; eexists; reflexivity).
  destruct H as [r Hr]. exists r. split; [ exact Hr | ].
  assert (Hs : ~ aborted r).
  { destruct (runTests_summary _ _ _ _ _ r Hr) as (p & Hp & Hiff).
    rewrite parse_scenario_curl in Hp. injection Hp as <-.
    intros Ha. apply Hiff in Ha. discriminate. }
  apply (security_assessment_bounds _ _ _ _ r scenario_payload Hr Hs).
  destruct (runTests_completed _ _ _ _ _ r Hr Hs) as [Hp _].
  rewrite parse_scenario_curl in Hp. injection Hp as <-. reflexivity.
Defined.

(** ** The headers of a parsed request *)

Lemma drop_space_idempotent (l : list ascii) : drop_space (drop_space l) = drop_space l.
Proof.
  induction l as [ | c l IH ]; [ reflexivity | ]. simpl.
  destruct (is_space c) eqn:E; [ exact IH | ]. simpl. rewrite E. reflexivity.
Qed.

Lemma drop_space_snoc (l : list ascii) (c : ascii) :
  is_space c = false -> drop_space (l ++ [c]) = drop_space l ++ [c].
Proof.
  intros Hc. induction l as [ | x l IH ]; simpl; [ rewrite Hc; reflexivity | ].
  destruct (is_space x); [ exact IH | reflexivity ].
Qed.

Lemma drop_space_head (l : list ascii) :
  drop_space l = [] \/ exists c rest, drop_space l = c :: rest /\ is_space c = false.
Proof.
  induction l as [ | x l IH ]; [ left; reflexivity | ]. simpl.
  destruct (is_space x) eqn:E; [ exact IH | right; eauto ].
Qed.

Lemma trim_idempotent (s : string) : trim (trim s) = trim s.
Proof.
  unfold trim. rewrite list_ascii_of_string_of_list_ascii. f_equal.
  set (m := drop_space (list_ascii_of_string s)).
  assert (Hfront : drop_space (rev (drop_space (rev m))) = rev (drop_space (rev m))).
  { destruct (drop_space_head (list_ascii_of_string s)) as [ H | (c & rest & H & Hc) ];
      fold m in H; rewrite H; [ reflexivity | ].
    simpl rev. rewrite (drop_space_snoc _ _ Hc), rev_app_distr. simpl. rewrite Hc.
    reflexivity. }
  rewrite Hfront, rev_involutive, drop_space_idempotent. reflexivity.
Qed.

Lemma add_header_trimmed (h : gmap string string) (m : MatchResult) :
  map_Forall (fun key value => trim key = key /\ trim value = value) h ->
  map_Forall (fun key value => trim key = key /\ trim value = value) (add_header h m).
Proof.
  intros Hh. unfold add_header.
  destruct (indexOf _ ":") as [colonIndex | ]; [ | exact Hh ].
  destruct (0 <? colonIndex)%nat; [ | exact Hh ].
  apply map_Forall_insert_2; [ | exact Hh ].
  split; apply trim_idempotent.
Qed.

Lemma extract_headers_trimmed (curlCommand : string) :
  map_Forall (fun key value => trim key = key /\ trim value = value)
             (extract_headers curlCommand).
Proof.
  unfold extract_headers.
  generalize (exec_all no_flags headerPattern curlCommand). intros matches.
  assert (H : map_Forall (fun key value : string => trim key = key /\ trim value = value)
                         (∅ : gmap string string)) by apply map_Forall_empty.
  revert H. generalize (∅ : gmap string string).
  induction matches as [ | m matches IH ]; intros h Hh; [ exact Hh | ].
  apply IH, add_header_trimmed, Hh.
Qed.

(** X24.  The headers of a parsed request are stored trimmed: neither a
    name nor a value begins or ends with white space, however the header
    was written between its quotes. *)
Theorem parsed_headers_are_trimmed (curlCommand : string) (r : Request)
    (key value : string) :
  parseCurl curlCommand = Returns r ->
  headers r !! key = Some value ->
  trim key = key /\ trim value = value.
Proof.
  intros Hr. destruct (parseCurl_returns curlCommand) as (payload & _ & Hp).
  rewrite Hp in Hr. injection Hr as <-.
  change (extract_headers curlCommand !! key = Some value
          -> trim key = key /\ trim value = value).
  apply (extract_headers_trimmed curlCommand).
Qed.

Lemma parsed_headers_are_trimmed_witness :
  exists r,
    parseCurl "curl http://h.example/x -H ' Accept :  text/html '" = Returns r
    /\ headers r !! "Accept" = Some "text/html"
    /\ trim "Accept" = "Accept" /\ trim "text/html" = "text/html".
Proof.
  assert (H : exists r,
             parseCurl "curl http://h.example/x -H ' Accept :  text/html '" = Returns r
             /\ headers r !! "Accept" = Some "text/html").
  { vm_compute. eexists. split; reflexivity. }
  destruct H as (r & Hr & Hh). exists r. split; [ exact Hr | ]. split; [ exact Hh | ].
  apply (parsed_headers_are_trimmed _ r "Accept" "text/html" Hr Hh).
Defined.
